(** * RAMCloud segments: entry headers, certificates and [peek]

    A shallow embedding of [src/Segment.h], of the log settings of
    [src/OptionParser.cc] and of the start-up of [src/Server.cc].  Unsigned
    C++ integers are integers of [Z] with their wrap-around written out;
    pointers are addresses in [Z]; a failing [assert] and undefined
    behaviour are explicit outcomes of a call; calls on objects outside
    these files are recorded in the order they are made. *)

From Stdlib Require Import ZArith NArith Ascii String List Bool Lia.
From Stdlib Require DecimalString HexadecimalString DecimalN HexadecimalN.
Import ListNotations.
Local Open Scope Z_scope.

(** ** Machine integers *)

(** Conversion to an unsigned integer type of [w] bits. *)
Definition wrap (w x : Z) : Z := x mod 2 ^ w.

Definition uint8_t (x : Z) : Z := wrap 8 x.
Definition uint32_t (x : Z) : Z := wrap 32 x.
Definition size_t (x : Z) : Z := wrap 64 x.

Definition is_uint8 (x : Z) : Prop := 0 <= x < 2 ^ 8.
Definition is_uint32 (x : Z) : Prop := 0 <= x < 2 ^ 32.

(** ** Outcomes of a call *)

Inductive outcome (A : Type) : Type :=
| Returns (a : A)
| AssertionFails
| Undefined.

Arguments Returns {A} a.
Arguments AssertionFails {A}.
Arguments Undefined {A}.

Definition bind {A B : Type} (c : outcome A) (k : A -> outcome B) : outcome B :=
  match c with
  | Returns a => k a
  | AssertionFails => AssertionFails
  | Undefined => Undefined
  end.

Notation "x <- c ;; k" := (bind c (fun x => k))
  (at level 61, c at next level, right associativity).

Notation "' pat <- c ;; k" :=
  (bind c (fun x => match x with pat => k end))
  (at level 61, pat pattern, c at next level, right associativity).

(** [assert(b)]. *)
Definition assert (b : bool) : outcome unit :=
  if b then Returns tt else AssertionFails.

Notation "'ensure' b ;; k" := (bind (assert b) (fun _ => k))
  (at level 61, b at next level, right associativity).

(** Modelled from the spec: [downCast] is declared in Common.h, which is not
    among the sources.  It is the checked narrowing conversion: the value is
    converted to the small type and an assertion requires that nothing was
    lost.  Here the small type is [uint8_t]. *)
Definition downCast_uint8_t (large : Z) : outcome Z :=
  let small := uint8_t large in
  ensure (large - small =? 0) ;;
  Returns small.

(** ** Segment::EntryHeader *)

Module EntryHeader.

Record t : Type := { lengthBytesAndType : Z }.

(** [EntryHeader(LogEntryType type, uint32_t length)].  The member
    initialiser runs first, then the body. *)
Definition EntryHeader (type length : Z) : outcome t :=
  b <- downCast_uint8_t type ;;
  ensure (Z.land type (Z.lnot 0x3f) =? 0) ;;
  Returns
    {| lengthBytesAndType :=
         if length <? 0x00000100 then uint8_t (Z.lor b (Z.shiftl 0 6))
         else if length <? 0x00010000 then uint8_t (Z.lor b (Z.shiftl 1 6))
         else if length <? 0x01000000 then uint8_t (Z.lor b (Z.shiftl 2 6))
         else uint8_t (Z.lor b (Z.shiftl 3 6)) |}.

(** [getType()].  [TOTAL_LOG_ENTRY_TYPES] comes from LogEntryTypes.h, which
    is not among the sources: it is a parameter. *)
Definition getType (TOTAL_LOG_ENTRY_TYPES : Z) (h : t) : outcome Z :=
  ensure (Z.land (lengthBytesAndType h) 0x3f <? TOTAL_LOG_ENTRY_TYPES) ;;
  Returns (Z.land (lengthBytesAndType h) 0x3f).

(** [getLengthBytes()]. *)
Definition getLengthBytes (h : t) : outcome Z :=
  downCast_uint8_t (Z.shiftr (lengthBytesAndType h) 6 + 1).

(** [operator==]. *)
Definition eqb (this other : t) : bool :=
  lengthBytesAndType other =? lengthBytesAndType this.

(** Object representation of the packed struct: its only member. *)
Definition bytes (h : t) : list Z := [uint8_t (lengthBytesAndType h)].

End EntryHeader.

(** ** Segment::Certificate *)

(** [n] bytes of [x], least significant first. *)
Fixpoint le_bytes (n : nat) (x : Z) : list Z :=
  match n with
  | O => []
  | S n' => uint8_t x :: le_bytes n' (Z.shiftr x 8)
  end.

(** The value of a little-endian byte string. *)
Fixpoint le_value (bs : list Z) : Z :=
  match bs with
  | [] => 0
  | b :: bs' => Z.lor b (Z.shiftl (le_value bs') 8)
  end.

Module Certificate.

(** Modelled from the spec: [Crc32C::ResultType] is declared in Crc32C.h,
    which is not among the sources; the certificate's checksum is a
    [u32]. *)
Definition sizeof_Crc32C_ResultType : nat := 4.

Record t : Type := { segmentLength : Z; checksum : Z }.

(** [Certificate()]. *)
Definition Certificate : t := {| segmentLength := 0; checksum := 0 |}.

(** [operator==]. *)
Definition eqb (this other : t) : bool :=
  (segmentLength this =? segmentLength other) &&
  (checksum this =? checksum other).

(** Object representation of the packed class: the members in the order of
    their declaration, nothing between them. *)
Definition bytes (c : t) : list Z :=
  le_bytes 4 (segmentLength c) ++
  le_bytes sizeof_Crc32C_ResultType (checksum c).

End Certificate.

(** ** Segment *)

Definition NULL : Z := 0.

(** [vector::operator[]]: out of range is undefined. *)
Definition at_index {A : Type} (v : list A) (i : Z) : outcome A :=
  if i <? 0 then Undefined
  else match nth_error v (Z.to_nat i) with
       | Some a => Returns a
       | None => Undefined
       end.

Module Segment.

(** [DEFAULT_SEGMENT_SIZE], by whether [VALGRIND] is defined. *)
Definition DEFAULT_SEGMENT_SIZE (VALGRIND : bool) : Z :=
  if VALGRIND then 1 * 1024 * 1024 else 8 * 1024 * 1024.

Record t : Type := {
  segletSize : Z;          (* uint32_t *)
  segletSizeShift : Z;     (* int *)
  seglets : list Z;        (* vector<Seglet*> *)
  segletBlocks : list Z;   (* vector<void*> *)
  closed : bool;
  mustFreeBlocks : bool;
  head : Z;                (* uint32_t *)
  checksum : Z;            (* Crc32C *)
  entryCounts : list Z;    (* uint32_t[TOTAL_LOG_ENTRY_TYPES] *)
  entryLengths : list Z    (* uint32_t[TOTAL_LOG_ENTRY_TYPES] *)
}.

(** The comparison that opens [peek]: [offset] is converted to [size_t] and
    the product is taken in [size_t]. *)
Definition outOfRange (s : t) (offset : Z) : bool :=
  offset >=? size_t (segletSize s * Z.of_nat (length (segletBlocks s))).

(** [segletOffset] and [segletIndex] as [peek] computes them.  A shift count
    that is negative or not below the width of [uint32_t] is undefined. *)
Definition locate (s : t) (offset : Z) : outcome (Z * Z) :=
  if negb (segletSizeShift s =? 0) then
    if (0 <=? segletSizeShift s) && (segletSizeShift s <? 32) then
      Returns (Z.land offset (uint32_t (segletSize s - 1)),
               Z.shiftr offset (segletSizeShift s))
    else Undefined
  else Returns (offset, 0).

(** [peek(offset, outAddress)].  [out] is what [*outAddress] holds before
    the call; the result is the returned count and what [*outAddress] holds
    after the call. *)
Definition peek (s : t) (offset : Z) (out : Z) : outcome (Z * Z) :=
  if outOfRange s offset then Returns (0, out)
  else
    '(segletOffset, segletIndex) <- locate s offset ;;
    segletPtr <- at_index (segletBlocks s) segletIndex ;;
    ensure (negb (segletPtr =? NULL)) ;;
    Returns (uint32_t (segletSize s - segletOffset), segletPtr + segletOffset).

(** *** The layout [peek] is specified against *)

(** The decomposition of the data model, which the bit operations stand
    for: offset within the seglet by modulo, seglet index by division. *)
Definition divmod (s : t) (offset : Z) : Z * Z :=
  (offset mod segletSize s, offset / segletSize s).

(** Where logical byte [i] lives: block [i / segletSize], at
    [i mod segletSize] ([segletBlocks[0]] covers byte offsets 0 through
    [segletSize - 1], and so on in the order of the array). *)
Definition byteAddress (s : t) (i : Z) : option Z :=
  if i <? 0 then None
  else match nth_error (segletBlocks s) (Z.to_nat (i / segletSize s)) with
       | Some block => Some (block + i mod segletSize s)
       | None => None
       end.

(** What [peek] needs of the fields it reads.  The test
    [segletSizeShift != 0] must tell several blocks from one: the shift is 0
    with a single block only, and otherwise log2(segletSize).  This is
    stricter than the documentation of [segletSizeShift], which gives
    log2(1) = 0 to several seglets of one byte; such segments are not [wf].
    Besides, no block is null (the assertion of [peek]) and the capacity
    fits [size_t]. *)
Record wf (s : t) : Prop := {
  wf_segletSize : is_uint32 (segletSize s);
  wf_shift :
    (segletSizeShift s = 0 /\ length (segletBlocks s) = 1%nat) \/
    (segletSizeShift s <> 0 /\ 0 <= segletSizeShift s /\
     segletSize s = 2 ^ segletSizeShift s);
  wf_blocks : Forall (fun block => block <> NULL) (segletBlocks s);
  wf_capacity : segletSize s * Z.of_nat (length (segletBlocks s)) < 2 ^ 64
}.

(** *** The operations of Segment.cc *)

(** Memory: the byte at each address. *)
Definition memory : Type := Z -> Z.

Definition store (m : memory) (address byte : Z) : memory :=
  fun a => if a =? address then byte else m a.

(** A segment together with the memory its blocks point into. *)
Definition state : Type := (t * memory)%type.

(** Modelled from the spec: Segment.cc is not among the sources.  The
    capacity of a segment is [segletSize] times the number of blocks. *)
Definition capacity (s : t) : Z :=
  segletSize s * Z.of_nat (length (segletBlocks s)).

(** Modelled from the spec: Segment.cc is not among the sources.  The
    length field takes the smallest [k] of 1, 2, 3, 4 with
    [L < 256 ^ k]. *)
Definition bytesNeeded (L : Z) : Z :=
  if L <? 256 ^ 1 then 1
  else if L <? 256 ^ 2 then 2
  else if L <? 256 ^ 3 then 3
  else 4.

(** Modelled from the spec: Segment.cc is not among the sources.
    [hasSpaceFor] is true iff appending the given payload lengths in
    sequence, each with one header byte and its length field, keeps [head]
    within the capacity. *)
Definition hasSpaceFor (s : t) (entryLengths : list Z) : bool :=
  head s + fold_right (fun L total => 1 + bytesNeeded L + L + total) 0 entryLengths
    <=? capacity s.

(** Modelled from the spec: Segment.cc is not among the sources.  Bytes
    written from a logical offset on go to [segletBlocks[o / s] + o mod s];
    the stores of the chunked loop, one byte at a time. *)
Fixpoint copyIn (s : t) (offset : Z) (data : list Z) (m : memory) : memory :=
  match data with
  | [] => m
  | byte :: rest =>
      copyIn s (offset + 1) rest
        match byteAddress s offset with
        | Some address => store m address byte
        | None => m
        end
  end.

(** Modelled from the spec: Segment.cc is not among the sources.  The
    per-type tallies are arrays of [uint32_t]; this is [tally[i] += d]. *)
Fixpoint bump (tally : list Z) (i : nat) (d : Z) : list Z :=
  match tally, i with
  | [], _ => []
  | c :: rest, O => uint32_t (c + d) :: rest
  | c :: rest, S i' => c :: bump rest i' d
  end.

(** Modelled from the spec: Segment.cc is not among the sources.
    [close()] sets [closed] and nothing else. *)
Definition close (s : t) : t :=
  {| segletSize := segletSize s;
     segletSizeShift := segletSizeShift s;
     seglets := seglets s;
     segletBlocks := segletBlocks s;
     closed := true;
     mustFreeBlocks := mustFreeBlocks s;
     head := head s;
     checksum := checksum s;
     entryCounts := entryCounts s;
     entryLengths := entryLengths s |}.

Section Operations.

(** The checksum engine of Crc32C.h, which is not among the sources:
    the running checksum extended by some bytes. *)
Variable crcUpdate : Z -> list Z -> Z.

(** Modelled from the spec: Segment.cc is not among the sources.
    [append(type, data, length)] fails, leaving the state as it is, when
    the segment is closed or lacks the space.  Otherwise it writes the
    header, the length field and the payload at [head], extends the
    checksum over header and length field only, advances [head], counts
    the entry and its payload bytes for its type, and returns the offset
    of the payload's first byte. *)
Definition append (type : Z) (data : list Z) (st : state)
  : outcome (bool * option Z * state) :=
  let s := fst st in
  let L := Z.of_nat (length data) in
  if closed s || negb (hasSpaceFor s [L]) then Returns (false, None, st)
  else
    header <- EntryHeader.EntryHeader type L ;;
    k <- EntryHeader.getLengthBytes header ;;
    let framing := EntryHeader.bytes header ++ le_bytes (Z.to_nat k) L in
    Returns
      (true, Some (head s + 1 + k),
       ({| segletSize := segletSize s;
           segletSizeShift := segletSizeShift s;
           seglets := seglets s;
           segletBlocks := segletBlocks s;
           closed := closed s;
           mustFreeBlocks := mustFreeBlocks s;
           head := head s + 1 + k + L;
           checksum := crcUpdate (checksum s) framing;
           entryCounts := bump (entryCounts s) (Z.to_nat type) 1;
           entryLengths := bump (entryLengths s) (Z.to_nat type) L |},
        copyIn s (head s) (framing ++ data) (snd st))).

(** A call on a segment that may change it. *)
Inductive call : Type :=
| Append (type : Z) (data : list Z)
| Close.

(** A sequence of calls; the results of its appends, in order. *)
Fixpoint run (calls : list call) (st : state) : outcome (list bool * state) :=
  match calls with
  | [] => Returns ([], st)
  | Append type data :: rest =>
      '(ok, _, st') <- append type data st ;;
      '(oks, st'') <- run rest st' ;;
      Returns (ok :: oks, st'')
  | Close :: rest => run rest (close (fst st), snd st)
  end.

End Operations.

(** The number of appends in a sequence of calls. *)
Fixpoint appends (calls : list call) : nat :=
  match calls with
  | [] => O
  | Append _ _ :: rest => S (appends rest)
  | Close :: rest => appends rest
  end.

(** The bytes of the segment, in logical order. *)
Definition contents (st : state) : list (option Z) :=
  map (fun i => option_map (snd st) (byteAddress (fst st) (Z.of_nat i)))
      (seq 0 (Z.to_nat (capacity (fst st)))).

(** What the accessors and readers of a segment show of it. *)
Definition observable (st : state)
  : Z * Z * list Z * list Z * list (option Z) :=
  (head (fst st), checksum (fst st), entryCounts (fst st),
   entryLengths (fst st), contents st).

End Segment.

(** ** OptionParser::setup: what follows the parsing *)

Module OptionParser.

(** [std::string::find(str)]: the position of the first occurrence of [str],
    [None] for [npos]. *)
Definition find (str s : string) : option nat := String.index 0 str s.

(** [std::string::substr(pos, n)]. *)
Definition substr (s : string) (pos n : nat) : string :=
  String.substring pos n s.

(** [std::string::substr(pos)]: from [pos] to the end.  [setup] calls it with
    a position one past a character of the string, which is never beyond
    the end. *)
Definition substr_from (s : string) (pos : nat) : string :=
  String.substring pos (String.length s - pos) s.

(** [EXIT_FAILURE] of <cstdlib>. *)
Definition EXIT_FAILURE : Z := 1.

(** What [setup] does to the world after parsing, in the order it does
    it. *)
Inductive effect : Type :=
| PrintUsage
| Exit (status : Z)
| SetLogFile (path : string)
| SetLogLevels (level : string)
| LogWarning (moduleLevel : string)
| SetLogLevel (name level : string)
| PcapConstruct (path : string).

(** The body of the loop over [logLevels]. *)
Definition setModuleLevel (moduleLevel : string) : effect :=
  match find "=" moduleLevel with
  | None => LogWarning moduleLevel
  | Some pos =>
      SetLogLevel (substr moduleLevel 0 pos) (substr_from moduleLevel (pos + 1))
  end.

(** [usageAndExit()]. *)
Definition usageAndExit : list effect := [PrintUsage; Exit EXIT_FAILURE].

(** The statements of [setup] from [if (vm.count("help"))] on.  The values
    the parser stored are the arguments: whether [help] was given,
    [logFile], [defaultLogLevel], [logLevels] and [options.pcapFilePath].
    Nothing follows [usageAndExit()], which does not return. *)
Definition setup (help : bool) (logFile defaultLogLevel : string)
    (logLevels : list string) (pcapFilePath : string) : list effect :=
  if help then usageAndExit
  else
    (if negb (String.length logFile =? 0)%nat then [SetLogFile logFile] else []) ++
    [SetLogLevels defaultLogLevel] ++
    map setModuleLevel logLevels ++
    (if negb (String.eqb pcapFilePath "") then [PcapConstruct pcapFilePath] else []).

(** The [logModule] entry a call of [setLogLevel] or a warning stands
    for. *)
Definition entryOf (e : effect) : option string :=
  match e with
  | SetLogLevel name level => Some (name ++ "=" ++ level)%string
  | LogWarning moduleLevel => Some moduleLevel
  | _ => None
  end.

(** The module name of a call of [setLogLevel] has no ['=']. *)
Definition wellNamed (e : effect) : Prop :=
  match e with
  | SetLogLevel name _ => find "=" name = None
  | LogWarning moduleLevel => find "=" moduleLevel = None
  | _ => False
  end.

End OptionParser.

(** ** Server *)

Module Server.

(** The services named in Server.cc; the enumeration is declared in
    WireFormat.h, which is not among the sources. *)
Inductive ServiceType : Type :=
| MASTER_SERVICE
| BACKUP_SERVICE
| COORDINATOR_SERVICE
| MEMBERSHIP_SERVICE
| PING_SERVICE.

(** The members of [ServerConfig] that Server.cc reads.  [services] is
    [config.services.has]. *)
Record ServerConfig : Type := {
  services : ServiceType -> bool;
  coordinatorLocator : string;
  localLocator : string;
  master_numReplicas : Z;
  backup_mockSpeed : Z;
  detectFailures : bool
}.

(** The members of [Server] that change.  A [Tub] or a pointer is what
    [if (tub)] sees of it: whether it holds an object. *)
Record t : Type := {
  backupReadSpeed : Z;
  backupWriteSpeed : Z;
  serverId : Z;
  serverList : bool;
  failureDetector : bool;
  master : bool;
  backup : bool;
  membership : bool;
  ping : bool
}.

(** What the objects Server.cc calls give back: whether the context came
    with a server list, the default [ServerId()], what the backup reports as
    its former id and measures in its benchmark, and the id the coordinator
    assigns. *)
Record environment : Type := {
  contextServerList : bool;
  invalidServerId : Z;
  formerServerId : Z;
  benchmarkReadSpeed : Z;
  benchmarkWriteSpeed : Z;
  enlistedServerId : Z
}.

(** The calls Server.cc makes on other objects, in the order it makes
    them. *)
Inductive effect : Type :=
| SetLocation (locator : string)
| Die
| NewServerList
| LogMasterBackups (numReplicas : Z)
| Construct (service : ServiceType)
| GetFormerServerId
| Benchmark
| BindAddService (service : ServiceType) (locator : string)
| ManagerAddService (service : ServiceType)
| PinAllMemory
| SetCurrentTime
| EnlistServer (replacingId : Z) (has : ServiceType -> bool) (locator : string)
    (readSpeed writeSpeed : Z)
| Init (service : ServiceType) (id : Z)
| StartFailureDetector (id : Z)
| Poll.

(** A method body: from the server before to the value returned ([None]
    when [DIE] ended the process), the server after and the calls made. *)
Definition action (A : Type) : Type := t -> option A * t * list effect.

Definition ret {A : Type} (a : A) : action A := fun srv => (Some a, srv, []).

Definition seq {A B : Type} (c : action A) (k : A -> action B) : action B :=
  fun srv =>
    match c srv with
    | (Some a, srv', calls) =>
        match k a srv' with
        | (b, srv'', calls') => (b, srv'', calls ++ calls')
        end
    | (None, srv', calls) => (None, srv', calls)
    end.

Notation "c >>= k" := (seq c k) (at level 58, left associativity).
Notation "c >> k" := (seq c (fun _ => k)) (at level 58, left associativity).

Definition emit (e : effect) : action unit := fun srv => (Some tt, srv, [e]).
Definition DIE : action unit := fun srv => (None, srv, [Die]).
Definition update (f : t -> t) : action unit := fun srv => (Some tt, f srv, []).
Definition read {A : Type} (f : t -> A) : action A :=
  fun srv => (Some (f srv), srv, []).
Definition when (b : bool) (c : action unit) : action unit :=
  if b then c else ret tt.

Definition set_speeds (r w : Z) (srv : t) : t :=
  {| backupReadSpeed := r; backupWriteSpeed := w; serverId := serverId srv;
     serverList := serverList srv; failureDetector := failureDetector srv;
     master := master srv; backup := backup srv;
     membership := membership srv; ping := ping srv |}.

Definition set_serverId (id : Z) (srv : t) : t :=
  {| backupReadSpeed := backupReadSpeed srv;
     backupWriteSpeed := backupWriteSpeed srv; serverId := id;
     serverList := serverList srv; failureDetector := failureDetector srv;
     master := master srv; backup := backup srv;
     membership := membership srv; ping := ping srv |}.

Definition new_serverList (srv : t) : t :=
  {| backupReadSpeed := backupReadSpeed srv;
     backupWriteSpeed := backupWriteSpeed srv; serverId := serverId srv;
     serverList := true; failureDetector := failureDetector srv;
     master := master srv; backup := backup srv;
     membership := membership srv; ping := ping srv |}.

Definition construct_failureDetector (srv : t) : t :=
  {| backupReadSpeed := backupReadSpeed srv;
     backupWriteSpeed := backupWriteSpeed srv; serverId := serverId srv;
     serverList := serverList srv; failureDetector := true;
     master := master srv; backup := backup srv;
     membership := membership srv; ping := ping srv |}.

(** [tub.construct(...)] for the four services. *)
Definition construct (service : ServiceType) (srv : t) : t :=
  {| backupReadSpeed := backupReadSpeed srv;
     backupWriteSpeed := backupWriteSpeed srv; serverId := serverId srv;
     serverList := serverList srv; failureDetector := failureDetector srv;
     master := match service with MASTER_SERVICE => true | _ => master srv end;
     backup := match service with BACKUP_SERVICE => true | _ => backup srv end;
     membership :=
       match service with MEMBERSHIP_SERVICE => true | _ => membership srv end;
     ping := match service with PING_SERVICE => true | _ => ping srv end |}.

Section Methods.

Variable env : environment.
Variable config : ServerConfig.

(** [Server(context, config)]. *)
Definition Server : t * list effect :=
  ({| backupReadSpeed := 0; backupWriteSpeed := 0;
      serverId := invalidServerId env; serverList := false;
      failureDetector := false; master := false; backup := false;
      membership := false; ping := false |},
   [SetLocation (coordinatorLocator config)]).

(** The registration that ends each branch of
    [createAndRegisterServices]. *)
Definition addService (bindTransport : bool) (service : ServiceType)
  : action unit :=
  if bindTransport then emit (BindAddService service (localLocator config))
  else emit (ManagerAddService service).

(** [createAndRegisterServices(bindTransport)]; the argument is whether the
    pointer is not null. *)
Definition createAndRegisterServices (bindTransport : bool) : action Z :=
  when (services config COORDINATOR_SERVICE) DIE >>
  when (negb (contextServerList env))
    (emit NewServerList >> update new_serverList) >>
  when (services config MASTER_SERVICE)
    (emit (LogMasterBackups (master_numReplicas config)) >>
     emit (Construct MASTER_SERVICE) >> update (construct MASTER_SERVICE) >>
     addService bindTransport MASTER_SERVICE) >>
  (if services config BACKUP_SERVICE then
     emit (Construct BACKUP_SERVICE) >> update (construct BACKUP_SERVICE) >>
     emit GetFormerServerId >>
     (if backup_mockSpeed config =? 0 then
        emit Benchmark >>
        update (set_speeds (benchmarkReadSpeed env) (benchmarkWriteSpeed env))
      else
        update (set_speeds (backup_mockSpeed config) (backup_mockSpeed config))) >>
     addService bindTransport BACKUP_SERVICE >>
     ret (formerServerId env)
   else ret (invalidServerId env)) >>= fun formerServerId =>
  when (services config MEMBERSHIP_SERVICE)
    (emit (Construct MEMBERSHIP_SERVICE) >>
     update (construct MEMBERSHIP_SERVICE) >>
     addService bindTransport MEMBERSHIP_SERVICE) >>
  when (services config PING_SERVICE)
    (emit (Construct PING_SERVICE) >> update (construct PING_SERVICE) >>
     addService bindTransport PING_SERVICE) >>
  ret formerServerId.

(** [enlist(replacingId)]. *)
Definition enlist (replacingId : Z) : action unit :=
  read backupReadSpeed >>= fun readSpeed =>
  read backupWriteSpeed >>= fun writeSpeed =>
  emit (EnlistServer replacingId (services config) (localLocator config)
          readSpeed writeSpeed) >>
  update (set_serverId (enlistedServerId env)) >>
  (read master >>= fun constructed =>
   when constructed
     (read serverId >>= fun id => emit (Init MASTER_SERVICE id))) >>
  (read backup >>= fun constructed =>
   when constructed
     (read serverId >>= fun id => emit (Init BACKUP_SERVICE id))) >>
  when (detectFailures config)
    (update construct_failureDetector >>
     (read serverId >>= fun id => emit (StartFailureDetector id))).


(** The loop that ends [run], cut after [polls] rounds. *)
Fixpoint pollLoop (polls : nat) : action unit :=
  match polls with
  | O => ret tt
  | S polls' => emit Poll >> pollLoop polls'
  end.

(** [run()], which does not return: what it has done when its loop has gone
    round [polls] times. *)
Definition run (polls : nat) : action unit :=
  createAndRegisterServices false >>= fun formerServerId =>
  emit PinAllMemory >>
  emit SetCurrentTime >>
  enlist formerServerId >>
  pollLoop polls.

End Methods.

(** The calls of a method body started on a new server. *)
Definition calls {A : Type} (env : environment) (config : ServerConfig)
    (body : action A) : list effect :=
  snd (body (fst (Server env config))).




End Server.

(** [EntryHeader()], the default constructor.  [LOG_ENTRY_TYPE_INVALID] comes
    from LogEntryTypes.h, which is not among the sources: it is a
    parameter. *)
Definition EntryHeader_default (LOG_ENTRY_TYPE_INVALID : Z)
  : outcome EntryHeader.t :=
  b <- downCast_uint8_t LOG_ENTRY_TYPE_INVALID ;;
  Returns {| EntryHeader.lengthBytesAndType := b |}.

(** ** Certificate::toString *)

(** [format] is declared in Common.h, which is not among the sources: it is
    [printf] into a string.  This is its conversion [%u]. *)
Definition format_u (x : Z) : string :=
  DecimalString.NilZero.string_of_uint (N.to_uint (Z.to_N x)).

Fixpoint zeros (n : nat) : string :=
  match n with
  | O => EmptyString
  | S n' => String "0" (zeros n')
  end.

(** The conversion [%08x]: lower-case hexadecimal, padded with zeros on the
    left to at least 8 characters. *)
Definition format_08x (x : Z) : string :=
  let digits :=
    HexadecimalString.NilZero.string_of_uint (N.to_hex_uint (Z.to_N x)) in
  (zeros (8 - String.length digits) ++ digits)%string.

(** [Certificate::toString()]:
    [format("<%u, 0x%08x>", segmentLength, checksum)]. *)
Definition Certificate_toString (c : Certificate.t) : string :=
  ("<" ++ format_u (Certificate.segmentLength c) ++ ", 0x" ++
   format_08x (Certificate.checksum c) ++ ">")%string.

(** The character [c] does not occur in [s]. *)
Fixpoint lacks (c : ascii) (s : string) : Prop :=
  match s with
  | EmptyString => True
  | String a s' => a <> c /\ lacks c s'
  end.

(** ** Notions the properties are stated with *)

(** [k] is the smallest of 1, 2, 3, 4 with [L < 256 ^ k]. *)
Definition minimalLengthBytes (L k : Z) : Prop :=
  1 <= k <= 4 /\ L < 256 ^ k /\
  forall j, 1 <= j <= 4 -> L < 256 ^ j -> k <= j.

(** The width code the constructor puts above the type. *)
Definition widthCode (length : Z) : Z :=
  if length <? 0x00000100 then 0
  else if length <? 0x00010000 then 1
  else if length <? 0x01000000 then 2
  else 3.

(** [shift] is log2([size]): [size] is the power of two with that exponent,
    and the exponent of a power of two is not negative. *)
Definition log2_is (size shift : Z) : Prop :=
  0 <= shift /\ size = 2 ^ shift.

(** A segment of two seglets of 16 bytes each. *)
Definition twoSeglets : Segment.t :=
  {| Segment.segletSize := 16;
     Segment.segletSizeShift := 4;
     Segment.seglets := [256; 512];
     Segment.segletBlocks := [4096; 8192];
     Segment.closed := false;
     Segment.mustFreeBlocks := false;
     Segment.head := 0;
     Segment.checksum := 0;
     Segment.entryCounts := [0; 0; 0; 0];
     Segment.entryLengths := [0; 0; 0; 0] |}.

(** Two seglets of one byte each.  [segletSizeShift] is log2(1) = 0, as
    documented for several seglets, and so is what it is for a single
    block. *)
Definition shiftZeroTwoBlocks : Segment.t :=
  {| Segment.segletSize := 1;
     Segment.segletSizeShift := 0;
     Segment.seglets := [256; 512];
     Segment.segletBlocks := [4096; 8192];
     Segment.closed := false;
     Segment.mustFreeBlocks := false;
     Segment.head := 0;
     Segment.checksum := 0;
     Segment.entryCounts := [0; 0; 0; 0];
     Segment.entryLengths := [0; 0; 0; 0] |}.

(** One block of 16 bytes, empty and open. *)
Definition oneBlock : Segment.t :=
  {| Segment.segletSize := 16;
     Segment.segletSizeShift := 0;
     Segment.seglets := [];
     Segment.segletBlocks := [4096];
     Segment.closed := false;
     Segment.mustFreeBlocks := true;
     Segment.head := 0;
     Segment.checksum := 0;
     Segment.entryCounts := [0; 0; 0; 0];
     Segment.entryLengths := [0; 0; 0; 0] |}.

(** A checksum stand-in for running the operations: the sum of the bytes. *)
Definition byteSum (c : Z) (bs : list Z) : Z :=
  uint32_t (fold_left Z.add bs c).

(** The blocks of a segment occupy pairwise disjoint ranges of
    [segletSize] addresses. *)
Definition disjointBlocks (s : Segment.t) : Prop :=
  forall (i j : nat) (bi bj : Z),
    i <> j ->
    nth_error (Segment.segletBlocks s) i = Some bi ->
    nth_error (Segment.segletBlocks s) j = Some bj ->
    bi + Segment.segletSize s <= bj \/ bj + Segment.segletSize s <= bi.

(** The configuration of the first server of TableEnumeratorTest: master
    and ping services at [mock:host=master1]. *)
Definition master1 : Server.ServerConfig :=
  {| Server.services :=
       fun service =>
         match service with
         | Server.MASTER_SERVICE | Server.PING_SERVICE => true
         | _ => false
         end;
     Server.coordinatorLocator := "mock:host=coordinator";
     Server.localLocator := "mock:host=master1";
     Server.master_numReplicas := 0;
     Server.backup_mockSpeed := 100;
     Server.detectFailures := false |}.

(** An environment for running the methods of [Server]. *)
Definition mockCluster : Server.environment :=
  {| Server.contextServerList := false;
     Server.invalidServerId := -1;
     Server.formerServerId := 7;
     Server.benchmarkReadSpeed := 300;
     Server.benchmarkWriteSpeed := 200;
     Server.enlistedServerId := 2 |}.

(** [segletSizeShift] as its declaration documents it: log2(segletSize) if
    the segment consists of several seglets, otherwise 0. *)
Definition documentedShift (s : Segment.t) : Prop :=
  ((1 < length (Segment.segletBlocks s))%nat ->
   log2_is (Segment.segletSize s) (Segment.segletSizeShift s)) /\
  ((length (Segment.segletBlocks s) <= 1)%nat ->
   Segment.segletSizeShift s = 0).

(** * Properties *)

(** ** The code on some inputs *)

Example EntryHeader_small :
  EntryHeader.EntryHeader 7 6 = Returns {| EntryHeader.lengthBytesAndType := 7 |}.
Proof. reflexivity. Qed.

Example EntryHeader_three_length_bytes :
  EntryHeader.EntryHeader 7 65536 =
    Returns {| EntryHeader.lengthBytesAndType := 135 |}.
Proof. reflexivity. Qed.

Example EntryHeader_type_too_large :
  EntryHeader.EntryHeader 64 1 = AssertionFails.
Proof. reflexivity. Qed.

(** [getType] asserts that the type is one of the [TOTAL_LOG_ENTRY_TYPES]
    entry types: with 7 of them, a header of ordinal 63 is refused. *)
Example getType_beyond_total :
  EntryHeader.getType 7 {| EntryHeader.lengthBytesAndType := 63 |} =
    AssertionFails.
Proof. reflexivity. Qed.

Example peek_second_seglet :
  Segment.peek twoSeglets 21 0 = Returns (11, 8197).
Proof. reflexivity. Qed.

Example peek_past_the_end :
  Segment.peek twoSeglets 32 77 = Returns (0, 77).
Proof. reflexivity. Qed.

(** With two seglets of one byte the shift is 0 and [peek] takes the path
    of a single block: it resolves offset 1 into the first block and finds
    no contiguous byte there, while the byte lives at the start of the second
    block. *)
Example peek_outside_invariant :
  Segment.peek shiftZeroTwoBlocks 1 0 = Returns (0, 4097) /\
  Segment.byteAddress shiftZeroTwoBlocks 1 = Some 8192.
Proof. split; reflexivity. Qed.

(** Sixteen bytes of capacity take one entry of twelve payload bytes (one
    header byte, one length byte) and refuse a second one. *)
Example append_until_full :
  let payload := repeat 97 12 in
  match Segment.run byteSum
          [Segment.Append 2 payload; Segment.Append 2 payload]
          (oneBlock, fun _ => 0) with
  | Returns (oks, st) =>
      oks = [true; false] /\
      Segment.head (fst st) = 14 /\
      Segment.entryCounts (fst st) = [0; 0; 1; 0] /\
      Segment.entryLengths (fst st) = [0; 0; 12; 0] /\
      Segment.checksum (fst st) = 14 /\
      map (snd st) [4096; 4097; 4098; 4109; 4110] = [2; 12; 97; 97; 0]
  | _ => False
  end.
Proof. vm_compute. repeat split. Qed.

Example append_after_close_fails :
  match Segment.run byteSum
          [Segment.Append 2 [1; 2; 3]; Segment.Close; Segment.Append 2 [4]]
          (oneBlock, fun _ => 0) with
  | Returns (oks, st) => oks = [true; false] /\ Segment.head (fst st) = 5
  | _ => False
  end.
Proof. vm_compute. repeat split. Qed.

(** Side conditions on concrete numbers. *)
Ltac concrete := unfold is_uint8, is_uint32, log2_is; cbn; try lia.

(** ** Arithmetic of the packed byte *)

Lemma land_low_shifted (n b k : Z) :
  0 <= n -> 0 <= b < 2 ^ n -> Z.land b (Z.shiftl k n) = 0.
Proof.
  intros Hn Hb. apply Z.bits_inj'. intros i Hi.
  rewrite Z.land_spec, Z.bits_0.
  destruct (Z.lt_ge_cases i n) as [Hlt | Hge].
  - rewrite Z.shiftl_spec_low by assumption. apply andb_false_r.
  - destruct (Z.eq_dec b 0) as [-> | Hnz].
    + rewrite Z.bits_0. reflexivity.
    + rewrite (Z.bits_above_log2 b i); [reflexivity | lia | ].
      assert (Z.log2 b < n) by (apply Z.log2_lt_pow2; lia).
      lia.
Qed.

Lemma lor_low_shifted (n b k : Z) :
  0 <= n -> 0 <= b < 2 ^ n -> Z.lor b (Z.shiftl k n) = b + 2 ^ n * k.
Proof.
  intros Hn Hb.
  rewrite <- Z.lxor_lor by (apply land_low_shifted; assumption).
  rewrite <- Z.add_nocarry_lxor by (apply land_low_shifted; assumption).
  rewrite Z.shiftl_mul_pow2 by assumption. lia.
Qed.

Lemma lor_type_code (b k : Z) :
  0 <= b < 64 -> Z.lor b (Z.shiftl k 6) = b + 64 * k.
Proof.
  intros Hb. apply (lor_low_shifted 6); [lia | exact Hb].
Qed.

Lemma downCast_uint8_t_fits (x : Z) :
  0 <= x < 256 -> downCast_uint8_t x = Returns x.
Proof.
  intros Hx. unfold downCast_uint8_t, uint8_t, wrap.
  change (2 ^ 8) with 256. rewrite Z.mod_small by assumption.
  rewrite Z.sub_diag. reflexivity.
Qed.

Lemma low6_of_packed (b k : Z) :
  0 <= b < 64 -> Z.land (b + 64 * k) 0x3f = b.
Proof.
  intros Hb. change 0x3f with (Z.ones 6).
  rewrite Z.land_ones by lia. change (2 ^ 6) with 64.
  replace (b + 64 * k) with (b + k * 64) by lia.
  rewrite Z.mod_add by lia. apply Z.mod_small. assumption.
Qed.

Lemma high2_of_packed (b k : Z) :
  0 <= b < 64 -> Z.shiftr (b + 64 * k) 6 = k.
Proof.
  intros Hb. rewrite Z.shiftr_div_pow2 by lia. change (2 ^ 6) with 64.
  replace (b + 64 * k) with (b + k * 64) by lia.
  rewrite Z.div_add by lia. rewrite Z.div_small by assumption. lia.
Qed.

Lemma type_mask_valid (type : Z) :
  0 <= type < 64 -> (Z.land type (Z.lnot 0x3f) =? 0) = true.
Proof.
  intros Ht. apply Z.eqb_eq.
  change (Z.lnot 0x3f) with (Z.shiftl (-1) 6).
  apply land_low_shifted; [lia | exact Ht].
Qed.

Lemma widthCode_range (length : Z) : 0 <= widthCode length < 4.
Proof.
  unfold widthCode.
  destruct (length <? 0x00000100), (length <? 0x00010000),
    (length <? 0x01000000); lia.
Qed.

Lemma EntryHeader_value (type length : Z) :
  0 <= type < 64 ->
  EntryHeader.EntryHeader type length =
    Returns {| EntryHeader.lengthBytesAndType := type + 64 * widthCode length |}.
Proof.
  intros Ht. unfold EntryHeader.EntryHeader.
  rewrite downCast_uint8_t_fits by lia. cbn [bind].
  rewrite type_mask_valid by assumption. cbn [assert bind].
  do 2 f_equal. unfold widthCode.
  assert (Hw : forall k, 0 <= k < 4 ->
            uint8_t (Z.lor type (Z.shiftl k 6)) = type + 64 * k).
  { intros k Hk. rewrite lor_type_code by assumption.
    unfold uint8_t, wrap. apply Z.mod_small. change (2 ^ 8) with 256. lia. }
  destruct (length <? 0x00000100); [apply Hw; lia | ].
  destruct (length <? 0x00010000); [apply Hw; lia | ].
  destruct (length <? 0x01000000); apply Hw; lia.
Qed.

(** ** The length field's width *)

Lemma pow256_values :
  256 ^ 1 = 256 /\ 256 ^ 2 = 65536 /\ 256 ^ 3 = 16777216 /\
  256 ^ 4 = 4294967296.
Proof. repeat split; reflexivity. Qed.

Lemma widthCode_minimal (L : Z) :
  is_uint32 L -> minimalLengthBytes L (widthCode L + 1).
Proof.
  intros [HL0 HL]. change (2 ^ 32) with 4294967296 in HL.
  destruct pow256_values as (P1 & P2 & P3 & P4).
  assert (Hj : forall j, 1 <= j <= 4 -> j = 1 \/ j = 2 \/ j = 3 \/ j = 4)
    by (intros; lia).
  unfold minimalLengthBytes, widthCode.
  destruct (Z.ltb_spec L 0x00000100) as [H1 | H1];
    [ | destruct (Z.ltb_spec L 0x00010000) as [H2 | H2];
        [ | destruct (Z.ltb_spec L 0x01000000) as [H3 | H3] ] ];
    cbn [Z.add Pos.add Pos.succ];
    (split; [lia | split; [ first [rewrite P1 | rewrite P2 | rewrite P3 | rewrite P4]; lia | ] ]);
    intros j Hr Hlt;
    destruct (Hj j Hr) as [-> | [-> | [-> | ->]]];
    rewrite ?P1, ?P2, ?P3, ?P4 in Hlt; lia.
Qed.

Lemma minimalLengthBytes_unique (L k k' : Z) :
  minimalLengthBytes L k -> minimalLengthBytes L k' -> k = k'.
Proof.
  intros (Hr & Hlt & Hmin) (Hr' & Hlt' & Hmin').
  specialize (Hmin k' Hr' Hlt'). specialize (Hmin' k Hr Hlt). lia.
Qed.

Lemma getLengthBytes_value (type L : Z) :
  0 <= type < 64 ->
  EntryHeader.getLengthBytes
    {| EntryHeader.lengthBytesAndType := type + 64 * widthCode L |} =
  Returns (widthCode L + 1).
Proof.
  intros Ht. unfold EntryHeader.getLengthBytes. cbn [EntryHeader.lengthBytesAndType].
  rewrite high2_of_packed by assumption.
  apply downCast_uint8_t_fits. pose proof (widthCode_range L). lia.
Qed.

(** C1: for every valid entry type and every u32 payload length [L], the
    constructor returns a header whose high two bits hold [k - 1], where [k]
    is the smallest of 1, 2, 3, 4 with [L < 256 ^ k], and [getLengthBytes] on
    that header returns this [k]. *)
Theorem EntryHeader_length_bytes_minimal (type L : Z) :
  0 <= type < 64 ->
  is_uint32 L ->
  exists h k,
    EntryHeader.EntryHeader type L = Returns h /\
    minimalLengthBytes L k /\
    Z.shiftr (EntryHeader.lengthBytesAndType h) 6 = k - 1 /\
    EntryHeader.getLengthBytes h = Returns k.
Proof.
  intros Ht HL.
  exists {| EntryHeader.lengthBytesAndType := type + 64 * widthCode L |}.
  exists (widthCode L + 1).
  split; [apply EntryHeader_value; assumption | ].
  split; [apply widthCode_minimal; assumption | ].
  split; [ | apply getLengthBytes_value; assumption].
  cbn [EntryHeader.lengthBytesAndType].
  rewrite high2_of_packed by assumption. lia.
Qed.

Lemma EntryHeader_length_bytes_minimal_witness :
  exists h k,
    EntryHeader.EntryHeader 2 65536 = Returns h /\
    minimalLengthBytes 65536 k /\
    Z.shiftr (EntryHeader.lengthBytesAndType h) 6 = k - 1 /\
    EntryHeader.getLengthBytes h = Returns k.
Proof.
  apply (EntryHeader_length_bytes_minimal 2 65536); concrete.
Defined.

(** C5: for every entry type [t] (an ordinal below [TOTAL_LOG_ENTRY_TYPES])
    that fits the low six bits and every payload length, [getType] on the
    header constructed from [t] returns [t]. *)
Theorem EntryHeader_getType_roundtrip (TOTAL_LOG_ENTRY_TYPES t L : Z) :
  0 <= t <= 63 ->
  t < TOTAL_LOG_ENTRY_TYPES ->
  exists h,
    EntryHeader.EntryHeader t L = Returns h /\
    EntryHeader.getType TOTAL_LOG_ENTRY_TYPES h = Returns t.
Proof.
  intros Ht Htotal.
  exists {| EntryHeader.lengthBytesAndType := t + 64 * widthCode L |}.
  split; [apply EntryHeader_value; lia | ].
  unfold EntryHeader.getType. cbn [EntryHeader.lengthBytesAndType].
  rewrite low6_of_packed by lia.
  destruct (Z.ltb_spec t TOTAL_LOG_ENTRY_TYPES); [reflexivity | lia].
Qed.

Lemma EntryHeader_getType_roundtrip_witness :
  exists h,
    EntryHeader.EntryHeader 63 16777216 = Returns h /\
    EntryHeader.getType 64 h = Returns 63.
Proof.
  apply (EntryHeader_getType_roundtrip 64 63 16777216); lia.
Defined.

(** C9: for each of the 256 values of [lengthBytesAndType],
    [getLengthBytes] returns (its [downCast] does not fail) and the value
    returned is one of 1, 2, 3, 4. *)
Theorem getLengthBytes_total (h : EntryHeader.t) :
  is_uint8 (EntryHeader.lengthBytesAndType h) ->
  exists k, EntryHeader.getLengthBytes h = Returns k /\ 1 <= k <= 4.
Proof.
  intros [Hlo Hhi]. change (2 ^ 8) with 256 in Hhi.
  exists (Z.shiftr (EntryHeader.lengthBytesAndType h) 6 + 1).
  assert (Hs : 0 <= Z.shiftr (EntryHeader.lengthBytesAndType h) 6 < 4).
  { rewrite Z.shiftr_div_pow2 by lia. change (2 ^ 6) with 64.
    split; [apply Z.div_pos; lia | apply Z.div_lt_upper_bound; lia]. }
  split; [ | lia].
  unfold EntryHeader.getLengthBytes. apply downCast_uint8_t_fits. lia.
Qed.

Lemma getLengthBytes_total_witness :
  exists k,
    EntryHeader.getLengthBytes {| EntryHeader.lengthBytesAndType := 255 |} =
      Returns k /\ 1 <= k <= 4.
Proof.
  apply (getLengthBytes_total {| EntryHeader.lengthBytesAndType := 255 |}).
  concrete.
Defined.

(** C10: two headers constructed from valid types and u32 lengths are equal
    under [operator==] iff the types are equal and the lengths need the same
    minimal number of length bytes. *)
Theorem EntryHeader_eqb_iff (t1 t2 L1 L2 : Z) :
  0 <= t1 <= 63 -> 0 <= t2 <= 63 ->
  is_uint32 L1 -> is_uint32 L2 ->
  exists h1 h2,
    EntryHeader.EntryHeader t1 L1 = Returns h1 /\
    EntryHeader.EntryHeader t2 L2 = Returns h2 /\
    (EntryHeader.eqb h1 h2 = true <->
     t1 = t2 /\ exists k, minimalLengthBytes L1 k /\ minimalLengthBytes L2 k).
Proof.
  intros Ht1 Ht2 HL1 HL2.
  exists {| EntryHeader.lengthBytesAndType := t1 + 64 * widthCode L1 |}.
  exists {| EntryHeader.lengthBytesAndType := t2 + 64 * widthCode L2 |}.
  split; [apply EntryHeader_value; lia | ].
  split; [apply EntryHeader_value; lia | ].
  unfold EntryHeader.eqb. cbn [EntryHeader.lengthBytesAndType].
  rewrite Z.eqb_eq.
  pose proof (widthCode_range L1) as Hw1.
  pose proof (widthCode_range L2) as Hw2.
  pose proof (widthCode_minimal L1 HL1) as Hm1.
  pose proof (widthCode_minimal L2 HL2) as Hm2.
  split.
  - intros Heq.
    assert (t1 = t2 /\ widthCode L1 = widthCode L2) as [Ht Hw] by lia.
    split; [assumption | ].
    exists (widthCode L1 + 1). split; [assumption | ].
    rewrite Hw. assumption.
  - intros [Ht (k & Hk1 & Hk2)].
    pose proof (minimalLengthBytes_unique _ _ _ Hk1 Hm1).
    pose proof (minimalLengthBytes_unique _ _ _ Hk2 Hm2).
    lia.
Qed.

Lemma EntryHeader_eqb_iff_witness :
  exists h1 h2,
    EntryHeader.EntryHeader 3 256 = Returns h1 /\
    EntryHeader.EntryHeader 3 65535 = Returns h2 /\
    (EntryHeader.eqb h1 h2 = true <->
     3 = 3 /\ exists k, minimalLengthBytes 256 k /\ minimalLengthBytes 65535 k).
Proof.
  apply (EntryHeader_eqb_iff 3 3 256 65535); concrete.
Defined.

(** ** [peek] *)

Section Peek.

Variable s : Segment.t.
Variable offset : Z.
Hypothesis offset_u32 : is_uint32 offset.

Lemma shift_below_width :
  is_uint32 (Segment.segletSize s) ->
  log2_is (Segment.segletSize s) (Segment.segletSizeShift s) ->
  Segment.segletSizeShift s < 32.
Proof.
  intros [_ Hhi] [Hk Hpow]. rewrite Hpow in Hhi.
  apply (Z.pow_lt_mono_r_iff 2); lia.
Qed.

Lemma locate_fast_path :
  Segment.segletSizeShift s <> 0 ->
  is_uint32 (Segment.segletSize s) ->
  log2_is (Segment.segletSize s) (Segment.segletSizeShift s) ->
  Segment.locate s offset = Returns (Segment.divmod s offset).
Proof.
  intros Hnz Hsize Hlog.
  pose proof (shift_below_width Hsize Hlog) as Hlt.
  destruct Hlog as [Hk Hpow]. destruct offset_u32 as [Ho _].
  unfold Segment.locate, Segment.divmod.
  destruct (Z.eqb_spec (Segment.segletSizeShift s) 0) as [? | _]; [contradiction | ].
  cbn [negb].
  destruct (Z.leb_spec 0 (Segment.segletSizeShift s)); [ | lia].
  destruct (Z.ltb_spec (Segment.segletSizeShift s) 32); [ | lia].
  cbn [andb]. do 2 f_equal.
  - assert (Hmask : uint32_t (Segment.segletSize s - 1) =
                    Z.ones (Segment.segletSizeShift s)).
    { unfold uint32_t, wrap. rewrite Z.ones_equiv, Hpow.
      apply Z.mod_small. destruct Hsize as [_ Hhi]. rewrite Hpow in Hhi.
      assert (0 < 2 ^ Segment.segletSizeShift s) by (apply Z.pow_pos_nonneg; lia).
      lia. }
    rewrite Hmask, Z.land_ones, Hpow by assumption. reflexivity.
  - rewrite Z.shiftr_div_pow2, Hpow by assumption. reflexivity.
Qed.

Lemma capacity_size_t :
  is_uint32 (Segment.segletSize s) ->
  size_t (Segment.segletSize s * Z.of_nat (length (Segment.segletBlocks s))) <=
  Segment.segletSize s * Z.of_nat (length (Segment.segletBlocks s)).
Proof.
  intros [Hlo _]. unfold size_t, wrap.
  apply Z.mod_le; [ | reflexivity].
  apply Z.mul_nonneg_nonneg; lia.
Qed.

Lemma locate_in_range :
  Segment.wf s ->
  0 < Segment.segletSize s ->
  offset < Segment.segletSize s * Z.of_nat (length (Segment.segletBlocks s)) ->
  Segment.locate s offset = Returns (Segment.divmod s offset).
Proof.
  intros Hwf Hpos Hin.
  destruct (Segment.wf_shift s Hwf) as [[Hzero Hone] | (Hnz & Hk & Hpow)].
  - unfold Segment.locate, Segment.divmod. rewrite Hzero. cbn [Z.eqb negb].
    rewrite Hone in Hin. destruct offset_u32 as [Ho _].
    rewrite Z.mod_small, Z.div_small by lia. reflexivity.
  - apply locate_fast_path;
      [assumption | apply (Segment.wf_segletSize s Hwf) | split; assumption].
Qed.

Lemma block_of_index (q : Z) :
  Segment.wf s ->
  0 <= q < Z.of_nat (length (Segment.segletBlocks s)) ->
  exists block,
    nth_error (Segment.segletBlocks s) (Z.to_nat q) = Some block /\
    block <> NULL.
Proof.
  intros Hwf Hq.
  destruct (nth_error (Segment.segletBlocks s) (Z.to_nat q)) as [block | ] eqn:Hnth.
  - exists block. split; [reflexivity | ].
    pose proof (Segment.wf_blocks s Hwf) as Hall.
    rewrite Forall_forall in Hall. apply Hall.
    eapply nth_error_In. eassumption.
  - apply nth_error_None in Hnth. lia.
Qed.

Lemma same_seglet (size j : Z) :
  0 < size ->
  0 <= offset ->
  0 <= j < size - offset mod size ->
  (offset + j) / size = offset / size /\
  (offset + j) mod size = offset mod size + j.
Proof.
  intros Hsize Ho Hj.
  pose proof (Z.mod_pos_bound offset size Hsize) as Hr.
  pose proof (Z.div_mod offset size ltac:(lia)) as Hdm.
  assert (Hsum : offset + j = size * (offset / size) + (offset mod size + j)) by lia.
  split.
  - symmetry. apply (Z.div_unique_pos _ _ _ (offset mod size + j)); [lia | exact Hsum].
  - symmetry. apply (Z.mod_unique_pos _ _ (offset / size)); [lia | exact Hsum].
Qed.

End Peek.

Lemma twoSeglets_wf : Segment.wf twoSeglets.
Proof.
  split; cbn.
  - unfold is_uint32. lia.
  - right. repeat split; [discriminate | lia].
  - repeat constructor; discriminate.
  - lia.
Qed.

(** C6: when [segletSizeShift] is not 0 and [segletSize] is 2 to that power,
    the mask and shift of [peek] give, for every u32 offset, the offset within
    the seglet and the seglet index that modulo and division give. *)
Theorem peek_bit_ops_refine_divmod (s : Segment.t) (offset : Z) :
  is_uint32 (Segment.segletSize s) ->
  is_uint32 offset ->
  Segment.segletSizeShift s <> 0 ->
  log2_is (Segment.segletSize s) (Segment.segletSizeShift s) ->
  Segment.locate s offset = Returns (Segment.divmod s offset) /\
  Segment.divmod s offset =
    (offset mod Segment.segletSize s, offset / Segment.segletSize s).
Proof.
  intros Hsize Hoffset Hnz Hlog. split; [ | reflexivity].
  apply (locate_fast_path s offset Hoffset Hnz Hsize Hlog).
Qed.

Lemma peek_bit_ops_refine_divmod_witness :
  Segment.locate twoSeglets 21 = Returns (Segment.divmod twoSeglets 21) /\
  Segment.divmod twoSeglets 21 = (21 mod 16, 21 / 16).
Proof.
  apply (peek_bit_ops_refine_divmod twoSeglets 21); concrete.
Defined.

Example shiftZeroTwoBlocks_documented : documentedShift shiftZeroTwoBlocks.
Proof.
  split; cbn; intros H; [ | lia].
  split; [lia | reflexivity].
Qed.

(** [Segment.wf] is the documented shift, less the segments of several
    one-byte seglets, for blocks that are allocated. *)
Lemma documented_wf (s : Segment.t) :
  is_uint32 (Segment.segletSize s) ->
  documentedShift s ->
  Segment.segletBlocks s <> [] ->
  ((1 < length (Segment.segletBlocks s))%nat -> Segment.segletSize s <> 1) ->
  Forall (fun block => block <> NULL) (Segment.segletBlocks s) ->
  Segment.segletSize s * Z.of_nat (length (Segment.segletBlocks s)) < 2 ^ 64 ->
  Segment.wf s.
Proof.
  intros Hsize [Hseveral Hsingle] Hblocks Hbyte Hnonnull Hcapacity.
  split; try assumption.
  destruct (Segment.segletBlocks s) as [ | block0 [ | block1 rest]] eqn:Heq.
  - contradiction.
  - left. split; [apply Hsingle; cbn; lia | reflexivity].
  - right. destruct (Hseveral ltac:(cbn; lia)) as [Hk Hpow].
    split; [ | split; assumption].
    intros Hzero. rewrite Hzero in Hpow. apply (Hbyte ltac:(cbn; lia)).
    exact Hpow.
Qed.

(** C2: the claim holds of what [peek] is documented to do, and the code
    misses it on several seglets of one byte.  There [segletSizeShift] is
    log2(1) = 0, [peek] takes the path of a single block, and at every
    in-range offset but 0 it returns a pointer into the first block,
    [offset] bytes past its start, with a count that is not
    [segletSize - offset mod segletSize]. *)
Theorem peek_one_byte_seglets (s : Segment.t) (offset out block0 : Z) :
  Segment.segletSize s = 1 ->
  Segment.segletSizeShift s = 0 ->
  nth_error (Segment.segletBlocks s) 0 = Some block0 ->
  block0 <> NULL ->
  Z.of_nat (length (Segment.segletBlocks s)) < 2 ^ 64 ->
  is_uint32 offset ->
  0 < offset ->
  offset < Segment.segletSize s * Z.of_nat (length (Segment.segletBlocks s)) ->
  Segment.peek s offset out =
    Returns (uint32_t (1 - offset), block0 + offset) /\
  uint32_t (1 - offset) <>
    Segment.segletSize s - offset mod Segment.segletSize s.
Proof.
  intros Hsize Hshift Hblock Hnonnull Hlength [Ho Ho32] Hpos Hin.
  rewrite Hsize in Hin |- *. split.
  - unfold Segment.peek, Segment.outOfRange, Segment.locate, size_t, wrap.
    rewrite Hsize, Hshift, Z.mod_small by lia.
    destruct (Z.geb_spec offset
                (1 * Z.of_nat (length (Segment.segletBlocks s)))); [lia | ].
    cbn [Z.eqb negb bind]. unfold at_index. cbn [Z.ltb Z.compare Z.to_nat].
    rewrite Hblock. cbn [bind].
    destruct (Z.eqb_spec block0 NULL); [contradiction | ]. reflexivity.
  - rewrite Z.mod_1_r. unfold uint32_t, wrap.
    change (2 ^ 32) with 4294967296 in *.
    pose proof (Z.div_mod (1 - offset) 4294967296 ltac:(lia)) as Hdm.
    pose proof (Z.mod_pos_bound (1 - offset) 4294967296 ltac:(lia)) as Hr.
    lia.
Qed.

Lemma peek_one_byte_seglets_witness :
  Segment.peek shiftZeroTwoBlocks 1 0 = Returns (uint32_t (1 - 1), 4096 + 1) /\
  uint32_t (1 - 1) <> 1 - 1 mod 1.
Proof.
  apply (peek_one_byte_seglets shiftZeroTwoBlocks 1 0 4096);
    try reflexivity; unfold NULL; concrete.
Defined.

(** X18: on a segment that satisfies [Segment.wf] (so not one of several
    one-byte seglets) with [segletSize > 0], [peek] at an offset below
    [segletSize * |segletBlocks|] returns
    [r = segletSize - offset mod segletSize] and stores a pointer [p] such
    that the logical bytes [offset], ..., [offset + r - 1] live at [p], ...,
    [p + r - 1]. *)
Theorem peek_in_range_contiguous (s : Segment.t) (offset out : Z) :
  Segment.wf s ->
  0 < Segment.segletSize s ->
  is_uint32 offset ->
  offset < Segment.segletSize s * Z.of_nat (length (Segment.segletBlocks s)) ->
  exists p,
    Segment.peek s offset out =
      Returns (Segment.segletSize s - offset mod Segment.segletSize s, p) /\
    forall j,
      0 <= j < Segment.segletSize s - offset mod Segment.segletSize s ->
      Segment.byteAddress s (offset + j) = Some (p + j).
Proof.
  intros Hwf Hpos Hoffset Hin.
  pose proof (Segment.wf_segletSize s Hwf) as Hsize.
  pose proof (Segment.wf_capacity s Hwf) as Hcap.
  destruct Hoffset as [Ho Ho32].
  pose proof (Z.mod_pos_bound offset (Segment.segletSize s) Hpos) as Hr.
  assert (Hq : 0 <= offset / Segment.segletSize s
               < Z.of_nat (length (Segment.segletBlocks s))).
  { split; [apply Z.div_pos; lia | apply Z.div_lt_upper_bound; lia]. }
  destruct (block_of_index s _ Hwf Hq) as (block & Hnth & Hnonnull).
  exists (block + offset mod Segment.segletSize s). split.
  - unfold Segment.peek, Segment.outOfRange, size_t, wrap.
    rewrite Z.mod_small by lia.
    destruct (Z.geb_spec offset
                (Segment.segletSize s * Z.of_nat (length (Segment.segletBlocks s))));
      [lia | ].
    rewrite (locate_in_range s offset (conj Ho Ho32) Hwf Hpos Hin).
    unfold Segment.divmod. cbn [bind]. unfold at_index.
    destruct (Z.ltb_spec (offset / Segment.segletSize s) 0); [lia | ].
    rewrite Hnth. cbn [bind].
    destruct (Z.eqb_spec block NULL); [contradiction | ].
    cbn [negb assert bind]. do 2 f_equal.
    unfold uint32_t, wrap. apply Z.mod_small.
    destruct Hsize as [_ Hsize]. lia.
  - intros j Hj.
    destruct (same_seglet offset (Segment.segletSize s) j Hpos Ho Hj) as [Hdiv Hmod].
    unfold Segment.byteAddress.
    destruct (Z.ltb_spec (offset + j) 0); [lia | ].
    rewrite Hdiv, Hmod, Hnth. f_equal. lia.
Qed.

Lemma peek_in_range_contiguous_witness :
  exists p,
    Segment.peek twoSeglets 21 0 = Returns (16 - 21 mod 16, p) /\
    forall j,
      0 <= j < 16 - 21 mod 16 ->
      Segment.byteAddress twoSeglets (21 + j) = Some (p + j).
Proof.
  apply (peek_in_range_contiguous twoSeglets 21 0 twoSeglets_wf); concrete.
Defined.

(** C4, as the code has it: for every offset at or beyond
    [segletSize * |segletBlocks|], [peek] returns 0 and does not store to
    [*outAddress], which keeps the value it had before the call. *)
Theorem peek_out_of_range (s : Segment.t) (offset out : Z) :
  is_uint32 (Segment.segletSize s) ->
  is_uint32 offset ->
  offset >= Segment.segletSize s * Z.of_nat (length (Segment.segletBlocks s)) ->
  Segment.peek s offset out = Returns (0, out).
Proof.
  intros Hsize Hoffset Hout.
  pose proof (capacity_size_t s Hsize) as Hle.
  unfold Segment.peek, Segment.outOfRange.
  destruct (Z.geb_spec offset
              (size_t (Segment.segletSize s *
                       Z.of_nat (length (Segment.segletBlocks s)))));
    [reflexivity | lia].
Qed.

Lemma peek_out_of_range_witness :
  Segment.peek twoSeglets 32 4097 = Returns (0, 4097).
Proof.
  apply (peek_out_of_range twoSeglets 32 4097); concrete.
Defined.

(** C4 as stated fails: past the end of [twoSeglets], [peek] returns 0 but
    the pointer is the one the caller had, not null. *)
Lemma peek_out_of_range_not_null :
  ~ (forall (s : Segment.t) (offset out : Z),
        is_uint32 (Segment.segletSize s) ->
        is_uint32 offset ->
        offset >= Segment.segletSize s * Z.of_nat (length (Segment.segletBlocks s)) ->
        Segment.peek s offset out = Returns (0, NULL)).
Proof.
  intros Hclaim.
  specialize (Hclaim twoSeglets 32 4097).
  assert (H : Segment.peek twoSeglets 32 4097 = Returns (0, NULL)).
  { apply Hclaim; concrete. }
  vm_compute in H. discriminate H.
Qed.

(** ** Wire sizes *)

Lemma le_bytes_length (n : nat) (x : Z) : length (le_bytes n x) = n.
Proof.
  revert x. induction n as [ | n IH]; intros x; cbn [le_bytes length].
  - reflexivity.
  - rewrite IH. reflexivity.
Qed.

Lemma le_value_le_bytes (n : nat) (x : Z) :
  le_value (le_bytes n x) = x mod 2 ^ (8 * Z.of_nat n).
Proof.
  revert x. induction n as [ | n IH]; intros x; cbn [le_bytes le_value].
  - change (2 ^ (8 * Z.of_nat 0)) with 1. rewrite Z.mod_1_r. reflexivity.
  - rewrite IH. unfold uint8_t, wrap.
    assert (H256 : 0 < 2 ^ 8) by reflexivity.
    assert (Hpow : 0 < 2 ^ (8 * Z.of_nat n)) by (apply Z.pow_pos_nonneg; lia).
    rewrite lor_low_shifted by (try apply Z.mod_pos_bound; lia).
    rewrite Z.shiftr_div_pow2 by lia.
    replace (8 * Z.of_nat (S n)) with (8 + 8 * Z.of_nat n) by lia.
    rewrite Z.pow_add_r by lia.
    rewrite Z.rem_mul_r by lia. reflexivity.
Qed.

Lemma le_value_le_bytes_u32 (x : Z) :
  is_uint32 x -> le_value (le_bytes 4 x) = x.
Proof.
  intros Hx. rewrite le_value_le_bytes. apply Z.mod_small. exact Hx.
Qed.

(** C7: the bytes of every [EntryHeader] are 1 byte; the bytes of every
    [Certificate] are 8 bytes, the first 4 those of [segmentLength] and the
    last 4 those of [checksum]. *)
Theorem wire_sizes :
  (forall h : EntryHeader.t, length (EntryHeader.bytes h) = 1%nat) /\
  (forall c : Certificate.t,
      length (Certificate.bytes c) = 8%nat /\
      firstn 4 (Certificate.bytes c) = le_bytes 4 (Certificate.segmentLength c) /\
      skipn 4 (Certificate.bytes c) = le_bytes 4 (Certificate.checksum c)).
Proof.
  split.
  - intros h. reflexivity.
  - intros c. unfold Certificate.bytes, Certificate.sizeof_Crc32C_ResultType.
    split; [ | split].
    + rewrite length_app, !le_bytes_length. reflexivity.
    + rewrite firstn_app, le_bytes_length, firstn_all2
        by (rewrite le_bytes_length; lia).
      cbn [Nat.sub firstn]. apply app_nil_r.
    + rewrite skipn_app, le_bytes_length, skipn_all2
        by (rewrite le_bytes_length; lia).
      reflexivity.
Qed.

(** ** The default segment size *)

(** C8: [DEFAULT_SEGMENT_SIZE] is 8 MiB without [VALGRIND] and 1 MiB with
    it. *)
Theorem DEFAULT_SEGMENT_SIZE_values :
  Segment.DEFAULT_SEGMENT_SIZE false = 8 * 1024 * 1024 /\
  Segment.DEFAULT_SEGMENT_SIZE false = 8 * 2 ^ 20 /\
  Segment.DEFAULT_SEGMENT_SIZE true = 1 * 1024 * 1024 /\
  Segment.DEFAULT_SEGMENT_SIZE true = 2 ^ 20.
Proof. repeat split. Qed.

(** ** Closed segments *)

Section Closed.

Variable crcUpdate : Z -> list Z -> Z.

Lemma close_closed (s : Segment.t) : Segment.closed (Segment.close s) = true.
Proof. reflexivity. Qed.

Lemma close_idempotent (s : Segment.t) :
  Segment.closed s = true -> Segment.close s = s.
Proof.
  destruct s. cbn. intros ->. reflexivity.
Qed.

Lemma append_closed (type : Z) (data : list Z) (st : Segment.state) :
  Segment.closed (fst st) = true ->
  Segment.append crcUpdate type data st = Returns (false, None, st).
Proof.
  intros Hclosed. unfold Segment.append. rewrite Hclosed. reflexivity.
Qed.

Lemma run_closed (calls : list Segment.call) (st : Segment.state) :
  Segment.closed (fst st) = true ->
  Segment.run crcUpdate calls st =
    Returns (repeat false (Segment.appends calls), st).
Proof.
  intros Hclosed.
  induction calls as [ | [type data | ] rest IH];
    cbn [Segment.run Segment.appends repeat].
  - reflexivity.
  - rewrite append_closed by assumption. cbn [bind].
    rewrite IH. reflexivity.
  - rewrite close_idempotent by assumption.
    destruct st as [s m]. exact IH.
Qed.

End Closed.

(** C3: after [close()], whatever appends and closes follow, every append
    returns failure and the segment and its memory stay exactly as [close()]
    left them; so [head], [checksum], [entryCounts], [entryLengths] and the
    bytes of the segment are unchanged. *)
Theorem append_after_close
    (crcUpdate : Z -> list Z -> Z) (s : Segment.t) (m : Segment.memory)
    (calls : list Segment.call) :
  exists st',
    Segment.run crcUpdate calls (Segment.close s, m) =
      Returns (repeat false (Segment.appends calls), st') /\
    st' = (Segment.close s, m) /\
    Segment.observable st' = Segment.observable (Segment.close s, m) /\
    Segment.head (fst st') = Segment.head s /\
    forall type data,
      Segment.append crcUpdate type data st' = Returns (false, None, st').
Proof.
  exists (Segment.close s, m).
  split; [apply run_closed; reflexivity | ].
  split; [reflexivity | ].
  split; [reflexivity | ].
  split; [reflexivity | ].
  intros type data. apply append_closed. reflexivity.
Qed.

(** * Further properties *)

(** ** Entry headers: failure, decoding, order *)




Lemma byte_fields (b : Z) :
  is_uint8 b ->
  0 <= Z.land b 0x3f < 64 /\ 0 <= Z.shiftr b 6 < 4 /\
  b = Z.land b 0x3f + 64 * Z.shiftr b 6.
Proof.
  intros [Hlo Hhi]. change (2 ^ 8) with 256 in Hhi.
  change 0x3f with (Z.ones 6).
  rewrite Z.land_ones, Z.shiftr_div_pow2 by lia. change (2 ^ 6) with 64.
  pose proof (Z.mod_pos_bound b 64 ltac:(lia)).
  pose proof (Z.div_mod b 64 ltac:(lia)).
  assert (0 <= b / 64 < 4)
    by (split; [apply Z.div_pos | apply Z.div_lt_upper_bound]; lia).
  lia.
Qed.

Lemma getType_returns (TOTAL : Z) (h : EntryHeader.t) (t : Z) :
  EntryHeader.getType TOTAL h = Returns t ->
  t = Z.land (EntryHeader.lengthBytesAndType h) 0x3f /\ t < TOTAL.
Proof.
  unfold EntryHeader.getType.
  destruct (Z.ltb_spec (Z.land (EntryHeader.lengthBytesAndType h) 0x3f) TOTAL)
    as [Hlt | Hge];
    cbn [assert bind]; intros Hret; inversion Hret; subst;
    split; [reflexivity | lia].
Qed.

Lemma getLengthBytes_returns (h : EntryHeader.t) (k : Z) :
  is_uint8 (EntryHeader.lengthBytesAndType h) ->
  EntryHeader.getLengthBytes h = Returns k ->
  k = Z.shiftr (EntryHeader.lengthBytesAndType h) 6 + 1.
Proof.
  intros Hb. destruct (byte_fields _ Hb) as (_ & Hk & _).
  unfold EntryHeader.getLengthBytes.
  rewrite downCast_uint8_t_fits by lia. intros H. inversion H. reflexivity.
Qed.

(** X2: decoding then encoding gives the header back.  If [getType] and
    [getLengthBytes] return [t] and [k] on a header byte, the constructor
    called with [t] and any length whose length field takes [k] bytes returns
    that same header. *)
Theorem EntryHeader_reconstruct
    (TOTAL_LOG_ENTRY_TYPES : Z) (h : EntryHeader.t) (t k L : Z) :
  is_uint8 (EntryHeader.lengthBytesAndType h) ->
  is_uint32 L ->
  EntryHeader.getType TOTAL_LOG_ENTRY_TYPES h = Returns t ->
  EntryHeader.getLengthBytes h = Returns k ->
  minimalLengthBytes L k ->
  EntryHeader.EntryHeader t L = Returns h.
Proof.
  intros Hb HL Htype Hlen Hmin.
  destruct (byte_fields _ Hb) as (Ht & Hk & Hsplit).
  apply getType_returns in Htype. destruct Htype as [-> _].
  apply getLengthBytes_returns in Hlen; [ | assumption]. subst k.
  pose proof (minimalLengthBytes_unique _ _ _ Hmin (widthCode_minimal L HL)) as Hw.
  rewrite EntryHeader_value by assumption.
  destruct h as [b]. cbn [EntryHeader.lengthBytesAndType] in *.
  do 2 f_equal. lia.
Qed.

Lemma EntryHeader_reconstruct_witness :
  EntryHeader.EntryHeader 5 70000 =
    Returns {| EntryHeader.lengthBytesAndType := 133 |}.
Proof.
  apply (EntryHeader_reconstruct 64 {| EntryHeader.lengthBytesAndType := 133 |}
           5 3 70000); try reflexivity; concrete.
  unfold minimalLengthBytes. repeat split; try lia.
  intros j Hj Hlt.
  assert (Hcases : j = 1 \/ j = 2 \/ j = 3 \/ j = 4) by lia.
  destruct Hcases as [-> | [-> | [-> | ->]]]; cbn in Hlt; lia.
Defined.

(** X3: two header bytes are equal under [operator==] exactly when they
    decode to the same type and the same number of length bytes. *)
Theorem EntryHeader_eqb_decoded
    (TOTAL_LOG_ENTRY_TYPES : Z) (h1 h2 : EntryHeader.t) (t1 t2 k1 k2 : Z) :
  is_uint8 (EntryHeader.lengthBytesAndType h1) ->
  is_uint8 (EntryHeader.lengthBytesAndType h2) ->
  EntryHeader.getType TOTAL_LOG_ENTRY_TYPES h1 = Returns t1 ->
  EntryHeader.getType TOTAL_LOG_ENTRY_TYPES h2 = Returns t2 ->
  EntryHeader.getLengthBytes h1 = Returns k1 ->
  EntryHeader.getLengthBytes h2 = Returns k2 ->
  (EntryHeader.eqb h1 h2 = true <-> t1 = t2 /\ k1 = k2).
Proof.
  intros Hb1 Hb2 Ht1 Ht2 Hk1 Hk2.
  destruct (byte_fields _ Hb1) as (Hr1 & Hs1 & Hsplit1).
  destruct (byte_fields _ Hb2) as (Hr2 & Hs2 & Hsplit2).
  apply getType_returns in Ht1, Ht2. destruct Ht1 as [-> _], Ht2 as [-> _].
  apply getLengthBytes_returns in Hk1, Hk2; try assumption. subst k1 k2.
  unfold EntryHeader.eqb. rewrite Z.eqb_eq.
  split.
  - intros Heq. rewrite Heq. split; reflexivity.
  - intros [Ht Hk]. lia.
Qed.

Lemma EntryHeader_eqb_decoded_witness :
  EntryHeader.eqb {| EntryHeader.lengthBytesAndType := 133 |}
                  {| EntryHeader.lengthBytesAndType := 69 |} = true <->
  5 = 5 /\ 3 = 2.
Proof.
  apply (EntryHeader_eqb_decoded 64
           {| EntryHeader.lengthBytesAndType := 133 |}
           {| EntryHeader.lengthBytesAndType := 69 |});
    try reflexivity; concrete.
Defined.

Lemma widthCode_monotone (L1 L2 : Z) :
  L1 <= L2 -> widthCode L1 <= widthCode L2.
Proof.
  intros Hle. unfold widthCode.
  destruct (Z.ltb_spec L1 0x00000100), (Z.ltb_spec L1 0x00010000),
    (Z.ltb_spec L1 0x01000000), (Z.ltb_spec L2 0x00000100),
    (Z.ltb_spec L2 0x00010000), (Z.ltb_spec L2 0x01000000); lia.
Qed.

(** X4: the width of the length field grows with the length: for valid types
    and [L1 <= L2], the header built for [L1] never announces more length
    bytes than the header built for [L2]. *)
Theorem EntryHeader_length_bytes_monotone (t1 t2 L1 L2 : Z) :
  0 <= t1 <= 63 -> 0 <= t2 <= 63 ->
  L1 <= L2 ->
  exists h1 h2 k1 k2,
    EntryHeader.EntryHeader t1 L1 = Returns h1 /\
    EntryHeader.EntryHeader t2 L2 = Returns h2 /\
    EntryHeader.getLengthBytes h1 = Returns k1 /\
    EntryHeader.getLengthBytes h2 = Returns k2 /\
    k1 <= k2.
Proof.
  intros Ht1 Ht2 Hle.
  exists {| EntryHeader.lengthBytesAndType := t1 + 64 * widthCode L1 |}.
  exists {| EntryHeader.lengthBytesAndType := t2 + 64 * widthCode L2 |}.
  exists (widthCode L1 + 1), (widthCode L2 + 1).
  repeat split;
    try (apply EntryHeader_value; lia);
    try (apply getLengthBytes_value; lia).
  pose proof (widthCode_monotone L1 L2 Hle). lia.
Qed.

Lemma EntryHeader_length_bytes_monotone_witness :
  exists h1 h2 k1 k2,
    EntryHeader.EntryHeader 1 255 = Returns h1 /\
    EntryHeader.EntryHeader 2 256 = Returns h2 /\
    EntryHeader.getLengthBytes h1 = Returns k1 /\
    EntryHeader.getLengthBytes h2 = Returns k2 /\
    k1 <= k2.
Proof.
  apply (EntryHeader_length_bytes_monotone 1 2 255 256); lia.
Defined.

(** ** Certificates: equality and bytes *)

Lemma Certificate_eqb_eq (c1 c2 : Certificate.t) :
  Certificate.eqb c1 c2 = true <-> c1 = c2.
Proof.
  unfold Certificate.eqb. rewrite andb_true_iff, !Z.eqb_eq.
  destruct c1, c2. cbn. split.
  - intros [-> ->]. reflexivity.
  - intros H. inversion H. split; reflexivity.
Qed.

Lemma le_bytes_4_inj (x y : Z) :
  is_uint32 x -> is_uint32 y -> le_bytes 4 x = le_bytes 4 y -> x = y.
Proof.
  intros Hx Hy Heq.
  rewrite <- (le_value_le_bytes_u32 x Hx), <- (le_value_le_bytes_u32 y Hy).
  rewrite Heq. reflexivity.
Qed.

(** X5: for certificates whose fields are u32, [operator==] holds exactly
    when the 8 bytes of the two certificates are the same. *)
Theorem Certificate_eqb_bytes (c1 c2 : Certificate.t) :
  is_uint32 (Certificate.segmentLength c1) ->
  is_uint32 (Certificate.checksum c1) ->
  is_uint32 (Certificate.segmentLength c2) ->
  is_uint32 (Certificate.checksum c2) ->
  (Certificate.eqb c1 c2 = true <-> Certificate.bytes c1 = Certificate.bytes c2).
Proof.
  intros Hl1 Hc1 Hl2 Hc2. rewrite Certificate_eqb_eq. split.
  - intros ->. reflexivity.
  - unfold Certificate.bytes, Certificate.sizeof_Crc32C_ResultType.
    intros Hbytes.
    assert (Hlen : le_bytes 4 (Certificate.segmentLength c1) =
                   le_bytes 4 (Certificate.segmentLength c2))
      by exact (f_equal (firstn 4) Hbytes).
    assert (Hsum : le_bytes 4 (Certificate.checksum c1) =
                   le_bytes 4 (Certificate.checksum c2))
      by exact (f_equal (skipn 4) Hbytes).
    apply le_bytes_4_inj in Hlen, Hsum; try assumption.
    destruct c1, c2. cbn in *. subst. reflexivity.
Qed.

Lemma Certificate_eqb_bytes_witness :
  Certificate.eqb {| Certificate.segmentLength := 40; Certificate.checksum := 305419896 |}
                  {| Certificate.segmentLength := 48; Certificate.checksum := 305419896 |}
    = true <->
  Certificate.bytes {| Certificate.segmentLength := 40; Certificate.checksum := 305419896 |} =
  Certificate.bytes {| Certificate.segmentLength := 48; Certificate.checksum := 305419896 |}.
Proof.
  apply Certificate_eqb_bytes; concrete.
Defined.

(** ** [peek]: range of the result, runs and seglet boundaries *)

Section PeekRuns.

Variable s : Segment.t.
Hypothesis s_wf : Segment.wf s.

Local Abbreviation size := (Segment.segletSize s).
Local Abbreviation blocks := (Segment.segletBlocks s).

Lemma peek_beyond (offset out : Z) :
  is_uint32 offset ->
  offset >= size * Z.of_nat (length blocks) ->
  Segment.peek s offset out = Returns (0, out).
Proof.
  intros Hoffset Hout.
  pose proof (capacity_size_t s (Segment.wf_segletSize s s_wf)) as Hle.
  unfold Segment.peek, Segment.outOfRange.
  destruct (Z.geb_spec offset (size_t (size * Z.of_nat (length blocks))));
    [reflexivity | lia].
Qed.

Lemma size_positive (offset : Z) :
  0 <= offset -> offset < size * Z.of_nat (length blocks) -> 0 < size.
Proof.
  intros Ho Hin. destruct (Segment.wf_segletSize s s_wf) as [Hlo _].
  nia.
Qed.

Lemma peek_within (offset out : Z) :
  is_uint32 offset ->
  offset < size * Z.of_nat (length blocks) ->
  exists block,
    nth_error blocks (Z.to_nat (offset / size)) = Some block /\
    block <> NULL /\
    Segment.peek s offset out =
      Returns (size - offset mod size, block + offset mod size).
Proof.
  intros Hoffset Hin.
  pose proof (Segment.wf_segletSize s s_wf) as Hsize.
  pose proof (Segment.wf_capacity s s_wf) as Hcap.
  pose proof (size_positive offset (proj1 Hoffset) Hin) as Hpos.
  destruct Hoffset as [Ho Ho32].
  pose proof (Z.mod_pos_bound offset size Hpos) as Hr.
  assert (Hq : 0 <= offset / size < Z.of_nat (length blocks)).
  { split; [apply Z.div_pos; lia | apply Z.div_lt_upper_bound; lia]. }
  destruct (block_of_index s _ s_wf Hq) as (block & Hnth & Hnonnull).
  exists block. split; [exact Hnth | ]. split; [exact Hnonnull | ].
  unfold Segment.peek, Segment.outOfRange, size_t, wrap.
  rewrite Z.mod_small by lia.
  destruct (Z.geb_spec offset (size * Z.of_nat (length blocks))); [lia | ].
  rewrite (locate_in_range s offset (conj Ho Ho32) s_wf Hpos Hin).
  unfold Segment.divmod. cbn [bind]. unfold at_index.
  destruct (Z.ltb_spec (offset / size) 0); [lia | ].
  rewrite Hnth. cbn [bind].
  destruct (Z.eqb_spec block NULL); [contradiction | ].
  cbn [negb assert bind]. do 2 f_equal.
  unfold uint32_t, wrap. apply Z.mod_small. destruct Hsize as [_ Hsize]. lia.
Qed.

Lemma seglet_end_u32 (offset : Z) :
  is_uint32 offset ->
  offset < size * Z.of_nat (length blocks) ->
  (offset / size + 1) * size <= 2 ^ 32.
Proof.
  intros Hoffset Hin.
  pose proof (size_positive offset (proj1 Hoffset) Hin) as Hpos.
  destruct Hoffset as [Ho Ho32].
  destruct (Segment.wf_segletSize s s_wf) as [_ Hsize32].
  destruct (Segment.wf_shift s s_wf) as [[_ Hone] | (Hnz & Hk & Hpow)].
  - rewrite Hone in Hin.
    rewrite Z.div_small by lia. lia.
  - assert (Hk32 : Segment.segletSizeShift s < 32).
    { apply (Z.pow_lt_mono_r_iff 2); [lia | lia | ]. rewrite <- Hpow. exact Hsize32. }
    assert (Hsplit : 2 ^ 32 = size * 2 ^ (32 - Segment.segletSizeShift s)).
    { rewrite Hpow, <- Z.pow_add_r by lia. f_equal. lia. }
    assert (Hq : offset / size < 2 ^ (32 - Segment.segletSizeShift s))
      by (apply Z.div_lt_upper_bound; lia).
    nia.
Qed.

End PeekRuns.

(** X6: on a well-formed segment [peek] returns for every u32 offset; the
    count returned is at most [segletSize], it is 0 exactly for the offsets
    at or beyond the capacity, and the run it announces ends within the
    capacity. *)
Theorem peek_zero_iff_out_of_range (s : Segment.t) (offset out : Z) :
  Segment.wf s ->
  is_uint32 offset ->
  exists r p,
    Segment.peek s offset out = Returns (r, p) /\
    0 <= r <= Segment.segletSize s /\
    (r = 0 <->
     offset >= Segment.segletSize s * Z.of_nat (length (Segment.segletBlocks s))) /\
    (r <> 0 ->
     offset + r <= Segment.segletSize s * Z.of_nat (length (Segment.segletBlocks s))).
Proof.
  intros Hwf Hoffset.
  destruct (Z_lt_ge_dec offset
              (Segment.segletSize s * Z.of_nat (length (Segment.segletBlocks s))))
    as [Hin | Hout].
  - destruct (peek_within s Hwf offset out Hoffset Hin) as (block & _ & _ & Hpeek).
    pose proof (size_positive s Hwf offset (proj1 Hoffset) Hin) as Hpos.
    pose proof (Z.mod_pos_bound offset (Segment.segletSize s) Hpos) as Hr.
    pose proof (Z.div_mod offset (Segment.segletSize s) ltac:(lia)) as Hdm.
    assert (Hq : offset / Segment.segletSize s
                 < Z.of_nat (length (Segment.segletBlocks s)))
      by (apply Z.div_lt_upper_bound; lia).
    eexists. eexists. split; [exact Hpeek | ].
    split; [lia | ]. split; [lia | ]. intros _. nia.
  - exists 0, out. split; [apply peek_beyond; assumption | ].
    destruct (Segment.wf_segletSize s Hwf). split; [lia | ].
    split; [tauto | congruence].
Qed.

Lemma peek_zero_iff_out_of_range_witness :
  exists r p,
    Segment.peek twoSeglets 31 0 = Returns (r, p) /\
    0 <= r <= 16 /\
    (r = 0 <-> 31 >= 16 * 2) /\
    (r <> 0 -> 31 + r <= 16 * 2).
Proof.
  apply (peek_zero_iff_out_of_range twoSeglets 31 0 twoSeglets_wf); concrete.
Defined.

(** X7: on a segment that satisfies [Segment.wf], within the run that [peek]
    announces at an in-range offset, [peek] at [offset + j] returns what is
    left of the run and the pointer advanced by [j]. *)
Theorem peek_within_run (s : Segment.t) (offset j out out' : Z) :
  Segment.wf s ->
  is_uint32 offset ->
  offset < Segment.segletSize s * Z.of_nat (length (Segment.segletBlocks s)) ->
  0 <= j < Segment.segletSize s - offset mod Segment.segletSize s ->
  exists r p,
    Segment.peek s offset out = Returns (r, p) /\
    Segment.peek s (offset + j) out' = Returns (r - j, p + j).
Proof.
  intros Hwf Hoffset Hin Hj.
  pose proof (size_positive s Hwf offset (proj1 Hoffset) Hin) as Hpos.
  pose proof (seglet_end_u32 s Hwf offset Hoffset Hin) as Hend.
  pose proof (Z.mod_pos_bound offset (Segment.segletSize s) Hpos) as Hr.
  pose proof (Z.div_mod offset (Segment.segletSize s) ltac:(lia)) as Hdm.
  destruct (same_seglet offset (Segment.segletSize s) j Hpos (proj1 Hoffset) Hj)
    as [Hdiv Hmod].
  assert (Hq : offset / Segment.segletSize s
               < Z.of_nat (length (Segment.segletBlocks s)))
    by (apply Z.div_lt_upper_bound; lia).
  assert (Hoffset' : is_uint32 (offset + j))
    by (destruct Hoffset; unfold is_uint32; nia).
  assert (Hin' : offset + j
                 < Segment.segletSize s * Z.of_nat (length (Segment.segletBlocks s)))
    by nia.
  destruct (peek_within s Hwf offset out Hoffset Hin) as (block & Hnth & _ & Hpeek).
  destruct (peek_within s Hwf (offset + j) out' Hoffset' Hin')
    as (block' & Hnth' & _ & Hpeek').
  rewrite Hdiv, Hnth in Hnth'. inversion Hnth'; subst block'.
  eexists. eexists. split; [exact Hpeek | ].
  rewrite Hpeek', Hmod. do 2 f_equal; lia.
Qed.

Lemma peek_within_run_witness :
  exists r p,
    Segment.peek twoSeglets 21 0 = Returns (r, p) /\
    Segment.peek twoSeglets (21 + 4) 0 = Returns (r - 4, p + 4).
Proof.
  apply (peek_within_run twoSeglets 21 4 0 0 twoSeglets_wf); concrete.
Defined.

(** X8: on a segment that satisfies [Segment.wf], the run [peek] announces
    ends where the next seglet starts: if the offset just past the run is
    still in range, [peek] there returns a whole [segletSize] and the address
    of the next block. *)
Theorem peek_next_seglet (s : Segment.t) (offset out out' : Z) :
  Segment.wf s ->
  is_uint32 offset ->
  let size := Segment.segletSize s in
  let r := size - offset mod size in
  is_uint32 (offset + r) ->
  offset + r < size * Z.of_nat (length (Segment.segletBlocks s)) ->
  exists p next,
    Segment.peek s offset out = Returns (r, p) /\
    nth_error (Segment.segletBlocks s) (Z.to_nat (offset / size) + 1) = Some next /\
    Segment.peek s (offset + r) out' = Returns (size, next).
Proof.
  intros Hwf Hoffset size r Hnext32 Hnext.
  assert (Hpos : 0 < size).
  { apply (size_positive s Hwf (offset + r)); [exact (proj1 Hnext32) | exact Hnext]. }
  pose proof (Z.mod_pos_bound offset size Hpos) as Hr.
  pose proof (Z.div_mod offset size ltac:(lia)) as Hdm.
  assert (Hin : offset < size * Z.of_nat (length (Segment.segletBlocks s)))
    by (subst r; lia).
  assert (Hsum : offset + r = size * (offset / size + 1) + 0) by (subst r; lia).
  assert (Hdiv : (offset + r) / size = offset / size + 1)
    by (symmetry; apply (Z.div_unique_pos _ _ _ 0); [lia | exact Hsum]).
  assert (Hmod : (offset + r) mod size = 0)
    by (symmetry; apply (Z.mod_unique_pos _ _ (offset / size + 1)); [lia | exact Hsum]).
  destruct (peek_within s Hwf offset out Hoffset Hin) as (block & _ & _ & Hpeek).
  destruct (peek_within s Hwf (offset + r) out' Hnext32 Hnext)
    as (next & Hnth & _ & Hpeek').
  fold size in Hpeek, Hpeek', Hnth. rewrite Hdiv in Hnth. rewrite Hmod in Hpeek'.
  exists (block + offset mod size), next.
  split; [exact Hpeek | ]. split.
  - rewrite <- Hnth. f_equal.
    assert (0 <= offset / size) by (apply Z.div_pos; destruct Hoffset; lia).
    lia.
  - rewrite Hpeek'. do 2 f_equal; lia.
Qed.

Lemma peek_next_seglet_witness :
  exists p next,
    Segment.peek twoSeglets 5 0 = Returns (16 - 5 mod 16, p) /\
    nth_error [4096; 8192] (Z.to_nat (5 / 16) + 1) = Some next /\
    Segment.peek twoSeglets (5 + (16 - 5 mod 16)) 0 = Returns (16, next).
Proof.
  apply (peek_next_seglet twoSeglets 5 0 0 twoSeglets_wf); concrete.
Defined.

(** X9: when the blocks do not overlap, [peek] stores different pointers for
    different in-range offsets: no two logical bytes share an address. *)
Theorem peek_injective (s : Segment.t) (o1 o2 out1 out2 r1 r2 p1 p2 : Z) :
  Segment.wf s ->
  disjointBlocks s ->
  is_uint32 o1 -> is_uint32 o2 ->
  o1 < Segment.segletSize s * Z.of_nat (length (Segment.segletBlocks s)) ->
  o2 < Segment.segletSize s * Z.of_nat (length (Segment.segletBlocks s)) ->
  o1 <> o2 ->
  Segment.peek s o1 out1 = Returns (r1, p1) ->
  Segment.peek s o2 out2 = Returns (r2, p2) ->
  p1 <> p2.
Proof.
  intros Hwf Hdisjoint Ho1 Ho2 Hin1 Hin2 Hne Hpeek1 Hpeek2 Hsame.
  pose proof (size_positive s Hwf o1 (proj1 Ho1) Hin1) as Hpos.
  destruct (peek_within s Hwf o1 out1 Ho1 Hin1) as (b1 & Hnth1 & _ & Hp1).
  destruct (peek_within s Hwf o2 out2 Ho2 Hin2) as (b2 & Hnth2 & _ & Hp2).
  rewrite Hp1 in Hpeek1. rewrite Hp2 in Hpeek2.
  inversion Hpeek1 as [[Hr1 Hb1]]. inversion Hpeek2 as [[Hr2 Hb2]].
  pose proof (Z.mod_pos_bound o1 (Segment.segletSize s) Hpos) as Hm1.
  pose proof (Z.mod_pos_bound o2 (Segment.segletSize s) Hpos) as Hm2.
  pose proof (Z.div_mod o1 (Segment.segletSize s) ltac:(lia)) as Hdm1.
  pose proof (Z.div_mod o2 (Segment.segletSize s) ltac:(lia)) as Hdm2.
  destruct (Nat.eq_dec (Z.to_nat (o1 / Segment.segletSize s))
                       (Z.to_nat (o2 / Segment.segletSize s))) as [Hq | Hother].
  - rewrite Hq, Hnth2 in Hnth1. inversion Hnth1; subst b2.
    assert (0 <= o1 / Segment.segletSize s) by (apply Z.div_pos; destruct Ho1; lia).
    assert (0 <= o2 / Segment.segletSize s) by (apply Z.div_pos; destruct Ho2; lia).
    assert (o1 / Segment.segletSize s = o2 / Segment.segletSize s) by lia.
    nia.
  - destruct (Hdisjoint _ _ _ _ Hother Hnth1 Hnth2); lia.
Qed.

Lemma twoSeglets_disjoint : disjointBlocks twoSeglets.
Proof.
  intros i j bi bj Hij Hi Hj. cbn in *.
  destruct i as [ | [ | i]], j as [ | [ | j]]; cbn in Hi, Hj;
    try congruence;
    try (destruct i; discriminate Hi);
    try (destruct j; discriminate Hj);
    inversion Hi; inversion Hj; subst; lia.
Qed.

Lemma peek_injective_witness : 4101 <> 8197.
Proof.
  apply (peek_injective twoSeglets 5 21 0 0 11 11 4101 8197
           twoSeglets_wf twoSeglets_disjoint); try reflexivity; concrete.
Defined.

(** ** OptionParser: module log levels *)

Section ModuleLevels.

Import OptionParser.

Lemma find_equals_cons (c : ascii) (s : string) :
  find "=" (String c s) =
    if Ascii.eqb c "=" then Some O else option_map S (find "=" s).
Proof.
  unfold find. cbn [String.index String.prefix].
  destruct (Ascii.eqb_spec c "=") as [-> | Hne].
  - destruct (ascii_dec "=" "=") as [_ | Hne]; [ | contradiction].
    destruct s; reflexivity.
  - destruct (ascii_dec "=" c) as [Heq | _]; [congruence | ].
    destruct (String.index 0 "=" s); reflexivity.
Qed.

Lemma substring_whole (s : string) :
  String.substring 0 (String.length s) s = s.
Proof.
  induction s as [ | c s IH]; cbn; [reflexivity | ]. rewrite IH. reflexivity.
Qed.

Lemma find_joined (name level : string) :
  find "=" name = None ->
  find "=" (name ++ "=" ++ level) = Some (String.length name).
Proof.
  induction name as [ | c name IH]; intros Hnone.
  - cbn [String.append]. rewrite find_equals_cons. reflexivity.
  - rewrite find_equals_cons in Hnone.
    change ((String c name ++ "=" ++ level)%string)
      with (String c (name ++ "=" ++ level)).
    rewrite find_equals_cons.
    destruct (Ascii.eqb c "="); [discriminate Hnone | ].
    destruct (find "=" name); [discriminate Hnone | ].
    rewrite IH by reflexivity. reflexivity.
Qed.

Lemma substr_name (name rest : string) :
  substr (name ++ rest) 0 (String.length name) = name.
Proof.
  unfold substr. induction name as [ | c name IH]; cbn.
  - destruct rest; reflexivity.
  - rewrite IH. reflexivity.
Qed.

Lemma substr_from_level (name level : string) :
  substr_from (name ++ "=" ++ level) (String.length name + 1) = level.
Proof.
  unfold substr_from. induction name as [ | c name IH].
  - cbn. rewrite Nat.sub_0_r. apply substring_whole.
  - cbn [String.append String.length Nat.add String.substring Nat.sub].
    exact IH.
Qed.

Lemma setModuleLevel_split (moduleLevel : string) :
  entryOf (setModuleLevel moduleLevel) = Some moduleLevel /\
  wellNamed (setModuleLevel moduleLevel).
Proof.
  unfold setModuleLevel.
  induction moduleLevel as [ | c s IH].
  - split; reflexivity.
  - rewrite find_equals_cons.
    destruct (Ascii.eqb_spec c "=") as [-> | Hne].
    + cbn. rewrite Nat.sub_0_r, substring_whole. split; reflexivity.
    + destruct (find "=" s) as [pos | ] eqn:Hfind; cbn [option_map].
      * destruct IH as [Hentry Hname]. cbn in Hentry, Hname.
        unfold substr, substr_from in *.
        cbn [String.substring String.length Nat.add Nat.sub entryOf wellNamed].
        split.
        -- inversion Hentry as [Hs]. cbn [String.append]. rewrite Hs.
           rewrite Hs. reflexivity.
        -- rewrite find_equals_cons.
           destruct (Ascii.eqb_spec c "="); [contradiction | ].
           rewrite Hname. reflexivity.
      * split; [reflexivity | ]. cbn [wellNamed].
        rewrite find_equals_cons.
        destruct (Ascii.eqb_spec c "="); [contradiction | ].
        rewrite Hfind. reflexivity.
Qed.

End ModuleLevels.

(** The [logModule] entries that the effects of a run stand for, in
    order. *)
Lemma entries_of_module_levels (logLevels : list string) :
  flat_map (fun e => match OptionParser.entryOf e with
                     | Some entry => [entry]
                     | None => []
                     end)
           (map OptionParser.setModuleLevel logLevels) = logLevels.
Proof.
  induction logLevels as [ | entry rest IH]; cbn [map flat_map].
  - reflexivity.
  - rewrite (proj1 (setModuleLevel_split entry)), IH. reflexivity.
Qed.

(** X10: an entry [name=level] whose name has no ['='] makes the loop call
    [setLogLevel(name, level)], whatever the level is (it may itself contain
    ['=']). *)
Theorem setModuleLevel_joined (name level : string) :
  OptionParser.find "=" name = None ->
  OptionParser.setModuleLevel (name ++ "=" ++ level) =
    OptionParser.SetLogLevel name level.
Proof.
  intros Hname. unfold OptionParser.setModuleLevel.
  rewrite find_joined by assumption.
  rewrite substr_name, substr_from_level. reflexivity.
Qed.

Lemma setModuleLevel_joined_witness :
  OptionParser.setModuleLevel ("transport" ++ "=" ++ "a=b") =
    OptionParser.SetLogLevel "transport" "a=b".
Proof.
  apply (setModuleLevel_joined "transport" "a=b"). reflexivity.
Defined.

(** X11: without [--help], the calls of [setLogLevel] and the warnings that
    [setup] makes stand, in order, for exactly the [logModule] entries: each
    entry with an ['='] gives one call whose name and level joined by ['=']
    are the entry and whose name has no ['='], each entry without gives one
    warning, and nothing else is called or warned about. *)
Theorem setup_module_levels
    (logFile defaultLogLevel pcapFilePath : string) (logLevels : list string) :
  let effects :=
    OptionParser.setup false logFile defaultLogLevel logLevels pcapFilePath in
  flat_map (fun e => match OptionParser.entryOf e with
                     | Some entry => [entry]
                     | None => []
                     end) effects = logLevels /\
  Forall (fun e => OptionParser.entryOf e <> None -> OptionParser.wellNamed e)
         effects.
Proof.
  unfold OptionParser.setup. cbn zeta. split.
  - rewrite !flat_map_app, entries_of_module_levels.
    destruct (negb (String.length logFile =? 0)%nat),
      (negb (String.eqb pcapFilePath "")); cbn; rewrite ?app_nil_r; reflexivity.
  - rewrite !Forall_app. repeat split.
    + destruct (negb (String.length logFile =? 0)%nat); repeat constructor.
      cbn. congruence.
    + repeat constructor. cbn. congruence.
    + rewrite Forall_map, Forall_forall. intros entry _ _.
      apply setModuleLevel_split.
    + destruct (negb (String.eqb pcapFilePath "")); repeat constructor.
      cbn. congruence.
Qed.

Lemma in_skipn {A : Type} (x : A) (n : nat) (l : list A) :
  In x (skipn n l) -> In x l.
Proof.
  revert l. induction n as [ | n IH]; intros [ | a l]; cbn; auto.
Qed.

Lemma module_levels_no_default
    (logLevels : list string) (pcapFilePath later : string) :
  ~ In (OptionParser.SetLogLevels later)
       (map OptionParser.setModuleLevel logLevels ++
        (if negb (String.eqb pcapFilePath "")
         then [OptionParser.PcapConstruct pcapFilePath] else [])).
Proof.
  rewrite in_app_iff, in_map_iff. intros [(entry & Hcall & _) | Hpcap].
  - unfold OptionParser.setModuleLevel in Hcall.
    destruct (OptionParser.find "=" entry); discriminate Hcall.
  - destruct (negb (String.eqb pcapFilePath "")); cbn in Hpcap;
      [destruct Hpcap as [Hpcap | []]; discriminate Hpcap | contradiction].
Qed.

(** X12: without [--help], [setup] has applied the default level before each
    module-specific [setLogLevel], does not call [setLogLevels] again from
    that call on, and calls it with the default level only: the default
    never overrides a module's level. *)
Theorem setup_default_level_first
    (logFile defaultLogLevel pcapFilePath : string) (logLevels : list string)
    (j : nat) (name level : string) :
  nth_error
    (OptionParser.setup false logFile defaultLogLevel logLevels pcapFilePath) j =
    Some (OptionParser.SetLogLevel name level) ->
  In (OptionParser.SetLogLevels defaultLogLevel)
     (firstn j
        (OptionParser.setup false logFile defaultLogLevel logLevels pcapFilePath)) /\
  (forall later,
      ~ In (OptionParser.SetLogLevels later)
           (skipn j
              (OptionParser.setup false logFile defaultLogLevel logLevels
                 pcapFilePath))) /\
  (forall applied,
      In (OptionParser.SetLogLevels applied)
         (OptionParser.setup false logFile defaultLogLevel logLevels pcapFilePath) ->
      applied = defaultLogLevel).
Proof.
  unfold OptionParser.setup.
  pose proof (module_levels_no_default logLevels pcapFilePath) as Hnone.
  destruct (negb (String.length logFile =? 0)%nat); cbn [app].
  - destruct j as [ | [ | j]]; cbn [nth_error firstn skipn];
      [discriminate | discriminate | ].
    intros _. split; [right; left; reflexivity | ]. split.
    + intros later Hin. apply in_skipn in Hin. exact (Hnone later Hin).
    + intros applied [Hfile | [Hdefault | Hin]];
        [discriminate Hfile | congruence | destruct (Hnone applied Hin)].
  - destruct j as [ | j]; cbn [nth_error firstn skipn]; [discriminate | ].
    intros _. split; [left; reflexivity | ]. split.
    + intros later Hin. apply in_skipn in Hin. exact (Hnone later Hin).
    + intros applied [Hdefault | Hin];
        [congruence | destruct (Hnone applied Hin)].
Qed.

Lemma setup_default_level_first_witness :
  In (OptionParser.SetLogLevels "NOTICE")
     (firstn 3
        (OptionParser.setup false "server.log" "NOTICE"
           ["bad"; "transport=DEBUG"]%string "")) /\
  (forall later,
      ~ In (OptionParser.SetLogLevels later)
           (skipn 3
              (OptionParser.setup false "server.log" "NOTICE"
                 ["bad"; "transport=DEBUG"]%string ""))) /\
  (forall applied,
      In (OptionParser.SetLogLevels applied)
         (OptionParser.setup false "server.log" "NOTICE"
            ["bad"; "transport=DEBUG"]%string "") ->
      applied = "NOTICE"%string).
Proof.
  apply (setup_default_level_first "server.log" "NOTICE" ""
           ["bad"; "transport=DEBUG"]%string 3 "transport" "DEBUG").
  reflexivity.
Defined.

(** ** Server: which services start, and in what order *)

Section ServerCalls.

Import Server.

Variable env : environment.
Variable config : ServerConfig.





Lemma createAndRegisterServices_returns (bindTransport : bool) (srv : t) :
  services config COORDINATOR_SERVICE = false ->
  fst (fst (createAndRegisterServices env config bindTransport srv)) =
    Some (if services config BACKUP_SERVICE
          then formerServerId env else invalidServerId env).
Proof.
  intros Hcoordinator.
  unfold createAndRegisterServices, addService, seq, when, emit, update, ret.
  rewrite Hcoordinator.
  destruct (contextServerList env), (services config MASTER_SERVICE),
    (services config BACKUP_SERVICE), (backup_mockSpeed config =? 0),
    (services config MEMBERSHIP_SERVICE), (services config PING_SERVICE),
    bindTransport; reflexivity.
Qed.

End ServerCalls.

(** X13: when the coordinator service is not configured,
    [createAndRegisterServices] constructs exactly the configured services
    and registers each of them once: with the bind transport, at the local
    locator, when one is given, and with the service manager otherwise,
    never with both.  It returns the backup's former id when a backup is
    configured and the invalid id otherwise. *)
Theorem services_registered
    (env : Server.environment) (config : Server.ServerConfig)
    (bindTransport : bool) (srv : Server.t) :
  Server.services config Server.COORDINATOR_SERVICE = false ->
  let done := Server.createAndRegisterServices env config bindTransport srv in
  fst (fst done) =
    Some (if Server.services config Server.BACKUP_SERVICE
          then Server.formerServerId env else Server.invalidServerId env) /\
  forall service : Server.ServiceType,
    (In (Server.Construct service) (snd done) <->
     Server.services config service = true) /\
    (In (Server.ManagerAddService service) (snd done) <->
     bindTransport = false /\ Server.services config service = true) /\
    (forall locator,
        In (Server.BindAddService service locator) (snd done) <->
        bindTransport = true /\ Server.services config service = true /\
        locator = Server.localLocator config).
Proof.
  intros Hcoordinator done.
  split; [apply createAndRegisterServices_returns; assumption | ].
  subst done.
  unfold Server.createAndRegisterServices, Server.addService, Server.seq,
    Server.when, Server.emit, Server.update, Server.ret.
  rewrite Hcoordinator.
  destruct (Server.services config Server.MASTER_SERVICE) eqn:Hmaster,
    (Server.services config Server.BACKUP_SERVICE) eqn:Hbackup,
    (Server.services config Server.MEMBERSHIP_SERVICE) eqn:Hmembership,
    (Server.services config Server.PING_SERVICE) eqn:Hping,
    (Server.contextServerList env), (Server.backup_mockSpeed config =? 0),
    bindTransport;
    intros service; destruct service;
    rewrite ?Hmaster, ?Hbackup, ?Hmembership, ?Hping, ?Hcoordinator;
    cbn; repeat split; intros; intuition congruence.
Qed.

Lemma services_registered_witness :
  let done := Server.createAndRegisterServices mockCluster master1 true
                (fst (Server.Server mockCluster master1)) in
  fst (fst done) = Some (-1) /\
  forall service : Server.ServiceType,
    (In (Server.Construct service) (snd done) <->
     Server.services master1 service = true) /\
    (In (Server.ManagerAddService service) (snd done) <->
     true = false /\ Server.services master1 service = true) /\
    (forall locator,
        In (Server.BindAddService service locator) (snd done) <->
        true = true /\ Server.services master1 service = true /\
        locator = "mock:host=master1"%string).
Proof.
  apply (services_registered mockCluster master1 true). reflexivity.
Defined.







(** ** Certificates: the printed form *)

Example Certificate_toString_example :
  Certificate_toString
    {| Certificate.segmentLength := 40; Certificate.checksum := 48879 |} =
  "<40, 0x0000beef>"%string.
Proof. reflexivity. Qed.

Lemma split_at_separator (c : ascii) (d1 d2 r1 r2 : string) :
  lacks c d1 -> lacks c d2 ->
  (d1 ++ String c r1 = d2 ++ String c r2)%string ->
  d1 = d2 /\ r1 = r2.
Proof.
  revert d2. induction d1 as [ | a d1 IH]; intros [ | b d2] H1 H2 Heq;
    cbn in *.
  - inversion Heq. split; reflexivity.
  - inversion Heq; subst. destruct H2 as [Hb _]. contradiction.
  - inversion Heq; subst. destruct H1 as [Ha _]. contradiction.
  - inversion Heq; subst.
    destruct (IH d2 (proj2 H1) (proj2 H2) ltac:(assumption)) as [-> ->].
    split; reflexivity.
Qed.

Lemma lacks_app (c : ascii) (s1 s2 : string) :
  lacks c s1 -> lacks c s2 -> lacks c (s1 ++ s2).
Proof.
  induction s1 as [ | a s1 IH]; cbn; [tauto | ].
  intros [Ha H1] H2. split; [exact Ha | apply IH; assumption].
Qed.

Lemma lacks_zeros (c : ascii) (n : nat) : c <> "0"%char -> lacks c (zeros n).
Proof.
  intros Hc. induction n as [ | n IH]; cbn; [exact I | ].
  split; [congruence | exact IH].
Qed.

Lemma decimal_lacks_comma (d : Decimal.uint) :
  lacks "," (DecimalString.NilEmpty.string_of_uint d).
Proof.
  induction d; cbn; try exact I; (split; [discriminate | assumption]).
Qed.

Lemma hexadecimal_lacks_closing (d : Hexadecimal.uint) :
  lacks ">" (HexadecimalString.NilEmpty.string_of_uint d).
Proof.
  induction d; cbn; try exact I; (split; [discriminate | assumption]).
Qed.

Lemma format_u_lacks_comma (x : Z) : lacks "," (format_u x).
Proof.
  unfold format_u, DecimalString.NilZero.string_of_uint.
  destruct (N.to_uint (Z.to_N x)) eqn:E; try (rewrite <- E; apply decimal_lacks_comma).
  cbn. split; [discriminate | exact I].
Qed.

Lemma format_08x_lacks_closing (x : Z) : lacks ">" (format_08x x).
Proof.
  unfold format_08x. apply lacks_app; [apply lacks_zeros; discriminate | ].
  unfold HexadecimalString.NilZero.string_of_uint.
  destruct (N.to_hex_uint (Z.to_N x)) eqn:E;
    try (rewrite <- E; apply hexadecimal_lacks_closing).
  cbn. split; [discriminate | exact I].
Qed.

(** The number a decimal string stands for. *)
Lemma format_u_value (x : Z) :
  option_map N.of_uint (DecimalString.NilZero.uint_of_string (format_u x)) =
    Some (Z.to_N x).
Proof.
  unfold format_u.
  pose proof (DecimalN.Unsigned.of_to (Z.to_N x)) as Hof.
  destruct (N.to_uint (Z.to_N x)) eqn:E;
    try (rewrite DecimalString.NilZero.usu by discriminate; cbn [option_map];
         rewrite Hof; reflexivity).
  cbn in *. rewrite <- Hof. reflexivity.
Qed.

Lemma hexadecimal_value_zeros (n : nat) (s : string) :
  option_map N.of_hex_uint
    (HexadecimalString.NilEmpty.uint_of_string (zeros n ++ s)) =
  option_map N.of_hex_uint (HexadecimalString.NilEmpty.uint_of_string s).
Proof.
  induction n as [ | n IH]; cbn [zeros String.append]; [reflexivity | ].
  cbn [HexadecimalString.NilEmpty.uint_of_string]. rewrite <- IH.
  destruct (HexadecimalString.NilEmpty.uint_of_string (zeros n ++ s)) as [d | ];
    reflexivity.
Qed.

Lemma format_08x_value (x : Z) :
  option_map N.of_hex_uint
    (HexadecimalString.NilEmpty.uint_of_string (format_08x x)) =
    Some (Z.to_N x).
Proof.
  unfold format_08x. rewrite hexadecimal_value_zeros.
  pose proof (HexadecimalN.Unsigned.of_to (Z.to_N x)) as Hof.
  destruct (N.to_hex_uint (Z.to_N x)) eqn:E;
    unfold HexadecimalString.NilZero.string_of_uint;
    try (rewrite HexadecimalString.NilEmpty.usu; cbn [option_map];
         rewrite Hof; reflexivity).
  cbn in *. rewrite <- Hof. reflexivity.
Qed.

(** X16: certificates with non-negative fields that print the same are the
    same: [toString] loses nothing of a certificate. *)
Theorem Certificate_toString_injective (c1 c2 : Certificate.t) :
  0 <= Certificate.segmentLength c1 -> 0 <= Certificate.checksum c1 ->
  0 <= Certificate.segmentLength c2 -> 0 <= Certificate.checksum c2 ->
  Certificate_toString c1 = Certificate_toString c2 ->
  c1 = c2.
Proof.
  intros Hl1 Hc1 Hl2 Hc2 Hprint.
  unfold Certificate_toString in Hprint. cbn [String.append] in Hprint.
  inversion Hprint as [Hbody]. clear Hprint.
  apply split_at_separator in Hbody; try apply format_u_lacks_comma.
  destruct Hbody as [Hlength Hrest].
  inversion Hrest as [Hhex]. clear Hrest.
  apply split_at_separator in Hhex; try apply format_08x_lacks_closing.
  destruct Hhex as [Hchecksum _].
  pose proof (format_u_value (Certificate.segmentLength c1)) as V1.
  pose proof (format_u_value (Certificate.segmentLength c2)) as V2.
  rewrite Hlength, V2 in V1.
  pose proof (format_08x_value (Certificate.checksum c1)) as W1.
  pose proof (format_08x_value (Certificate.checksum c2)) as W2.
  rewrite Hchecksum, W2 in W1.
  inversion V1 as [Vn]. inversion W1 as [Wn].
  apply (f_equal Z.of_N) in Vn, Wn. rewrite !Z2N.id in Vn, Wn by assumption.
  destruct c1, c2. cbn in *. subst. reflexivity.
Qed.

Lemma Certificate_toString_injective_witness :
  {| Certificate.segmentLength := 40; Certificate.checksum := 48879 |} =
  {| Certificate.segmentLength := 40; Certificate.checksum := 48879 |}.
Proof.
  apply Certificate_toString_injective; cbn; try lia. reflexivity.
Defined.

(** ** The default entry header *)

(** X17: when the invalid entry type has an ordinal in 0..63, the default
    constructor gives the header that the two-argument constructor gives for
    the invalid type and any length below 256: its length field is a single
    byte, as its documentation says. *)
Theorem EntryHeader_default_single_byte (LOG_ENTRY_TYPE_INVALID L : Z) :
  0 <= LOG_ENTRY_TYPE_INVALID <= 63 ->
  L < 256 ->
  exists h,
    EntryHeader_default LOG_ENTRY_TYPE_INVALID = Returns h /\
    EntryHeader.EntryHeader LOG_ENTRY_TYPE_INVALID L = Returns h /\
    EntryHeader.getLengthBytes h = Returns 1.
Proof.
  intros Htype HL.
  exists {| EntryHeader.lengthBytesAndType := LOG_ENTRY_TYPE_INVALID |}.
  assert (Hcode : widthCode L = 0).
  { unfold widthCode. destruct (Z.ltb_spec L 0x00000100); [reflexivity | lia]. }
  split; [ | split].
  - unfold EntryHeader_default.
    rewrite downCast_uint8_t_fits by lia. reflexivity.
  - rewrite EntryHeader_value, Hcode by lia. do 2 f_equal. lia.
  - pose proof (getLengthBytes_value LOG_ENTRY_TYPE_INVALID L ltac:(lia)) as Hk.
    rewrite Hcode in Hk.
    replace (LOG_ENTRY_TYPE_INVALID + 64 * 0) with LOG_ENTRY_TYPE_INVALID in Hk
      by lia.
    exact Hk.
Qed.

Lemma EntryHeader_default_single_byte_witness :
  exists h,
    EntryHeader_default 0 = Returns h /\
    EntryHeader.EntryHeader 0 255 = Returns h /\
    EntryHeader.getLengthBytes h = Returns 1.
Proof.
  apply (EntryHeader_default_single_byte 0 255); lia.
Defined.
